(** * rplace: the update log, the tiered snapshot cache and write admission

    A shallow embedding of [rplace.cpp] and the properties of its
    [Snapshot::apply], [Place::update] and [Place::getCurrentState]. *)

From Stdlib Require Import ZArith Lia.
From stdpp Require Import base option list gmap strings.

Local Open Scope Z_scope.

(** ** Machine integers

    Every integer of the program is a [uint64_t]; it is modelled as a [Z]
    and each arithmetic operation of the source is followed by [wrap64]. *)

Definition wrap64 (z : Z) : Z := z mod 2 ^ 64.

Definition is_u64 (z : Z) : Prop := 0 ≤ z < 2 ^ 64.

(** ** class Pixel *)

Module Pixel.

Record t : Type := mk {
  getX : Z;
  getY : Z;
  getColor : Z;
  getUserID : Z
}.

Definition defaultColor : Z := 0.

(** The four members are [uint64_t]. *)
Definition wf (p : t) : Prop :=
  is_u64 (getX p) ∧ is_u64 (getY p) ∧ is_u64 (getColor p) ∧ is_u64 (getUserID p).

End Pixel.

(** ** class Update *)

Module Update.

Record t : Type := mk {
  recordNumber : Z;
  timestamp : Z;
  pixel : Pixel.t
}.

End Update.

(** ** class Snapshot *)

Module Snapshot.

Record t : Type := mk {
  width : Z;
  height : Z;
  pixels : list Pixel.t;
  recordNumber : Z
}.

(** [Snapshot::Snapshot(width, height)]: rows in increasing [y], and in a
    row the cells in increasing [x]; the constructor call is
    [Pixel(x, y, 0, Pixel::defaultColor)]. *)
Definition row (width y : Z) : list Pixel.t :=
  (λ x, Pixel.mk x y 0 Pixel.defaultColor) <$> seqZ 0 width.

Definition make (width height : Z) : t :=
  {| width := width;
     height := height;
     pixels := y ← seqZ 0 height; row width y;
     recordNumber := 0 |}.

(** [getY() * width + getX()], in [uint64_t]. *)
Definition index (width : Z) (p : Pixel.t) : Z :=
  wrap64 (wrap64 (Pixel.getY p * width) + Pixel.getX p).

(** [pixels[i] = p]. [std::vector::operator[]] checks nothing: an index
    past the end is undefined behaviour, which the model reports as
    [None]. *)
Definition store (pixels : list Pixel.t) (i : Z) (p : Pixel.t)
  : option (list Pixel.t) :=
  if decide (i < Z.of_nat (length pixels))
  then Some (<[Z.to_nat i := p]> pixels)
  else None.

(** The body of the [for] loop of [apply], run over [updates[i]],
    [updates[i+1]], ... in this order. *)
Fixpoint apply_loop (width : Z) (rest : list Update.t) (pixels : list Pixel.t)
  : option (list Pixel.t) :=
  match rest with
  | [] => Some pixels
  | u :: rest' =>
      pixels' ← store pixels (index width (Update.pixel u)) (Update.pixel u);
      apply_loop width rest' pixels'
  end.

(** [Snapshot::apply(updates)]: the loop starts at [i = recordNumber] and
    stops at [updates.size()], which then becomes [recordNumber].
    ([size()] is a [size_t] bounded by the vector's [max_size()], so it is
    the list's length.) *)
Definition apply (updates : list Update.t) (s : t) : option t :=
  pixels' ← apply_loop (width s) (drop (Z.to_nat (recordNumber s)) updates) (pixels s);
  Some {| width := width s;
          height := height s;
          pixels := pixels';
          recordNumber := Z.of_nat (length updates) |}.

End Snapshot.

(** ** The constants of [Place]

    The source fixes the grid to 1000 x 1000 (the member initialisers of
    [width] and [height]), the cooldown to [5 * 1'000'000] ticks and the
    republish distance to [100]. The embedding takes them from a
    configuration, of which [Config.source] is the program's. *)

Module Config.

Record t : Type := mk {
  width : Z;
  height : Z;
  cooldown : Z;
  republish : Z
}.

Definition source : t :=
  {| width := 1000; height := 1000; cooldown := 5 * 1000000; republish := 100 |}.

(** The constructor of [Snapshot] counts rows and columns with an [int]. *)
Definition wf (cfg : t) : Prop :=
  0 ≤ width cfg < 2 ^ 31 ∧ 0 ≤ height cfg < 2 ^ 31.

Definition with_republish (n : Z) (cfg : t) : t :=
  {| width := width cfg; height := height cfg;
     cooldown := cooldown cfg; republish := n |}.

End Config.

(** ** class Place *)

Module Place.

(** [recentSnapshot] is a [std::shared_ptr<const Snapshot>]. The objects
    made by [std::make_shared] live in [shared], in allocation order, and a
    pointer is the position of its object there. The objects are [const]:
    no entry of [shared] is ever overwritten, and an entry stays for as long
    as somebody may hold a pointer to it. *)
Abbreviation ptr := nat.

Record t : Type := mk {
  width : Z;
  height : Z;
  mostRecentUpdatesPerUser : gmap Z Z;
  updates : list Update.t;
  workingSnapshot : Snapshot.t;
  shared : list Snapshot.t;
  recentSnapshot : ptr
}.

(** [Place::Place()] *)
Definition make (cfg : Config.t) : t :=
  {| width := Config.width cfg;
     height := Config.height cfg;
     mostRecentUpdatesPerUser := ∅;
     updates := [];
     workingSnapshot := Snapshot.make (Config.width cfg) (Config.height cfg);
     shared := [Snapshot.make (Config.width cfg) (Config.height cfg)];
     recentSnapshot := 0%nat |}.

(** [std::make_shared<const Snapshot>(s)] *)
Definition make_shared (s : Snapshot.t) (pl : t) : ptr * t :=
  (length (shared pl),
   {| width := width pl;
      height := height pl;
      mostRecentUpdatesPerUser := mostRecentUpdatesPerUser pl;
      updates := updates pl;
      workingSnapshot := workingSnapshot pl;
      shared := shared pl ++ [s];
      recentSnapshot := recentSnapshot pl |}).

Definition set_workingSnapshot (s : Snapshot.t) (pl : t) : t :=
  {| width := width pl;
     height := height pl;
     mostRecentUpdatesPerUser := mostRecentUpdatesPerUser pl;
     updates := updates pl;
     workingSnapshot := s;
     shared := shared pl;
     recentSnapshot := recentSnapshot pl |}.

Definition set_recentSnapshot (r : ptr) (pl : t) : t :=
  {| width := width pl;
     height := height pl;
     mostRecentUpdatesPerUser := mostRecentUpdatesPerUser pl;
     updates := updates pl;
     workingSnapshot := workingSnapshot pl;
     shared := shared pl;
     recentSnapshot := r |}.

(** The accepting tail of [update]: the user's entry becomes the current
    time and [Update(updates.size(), currentTime, p)] is appended. Both
    receive the signed clock reading as a [uint64_t]. *)
Definition accept (currentTime : Z) (p : Pixel.t) (pl : t) : t :=
  {| width := width pl;
     height := height pl;
     mostRecentUpdatesPerUser :=
       <[Pixel.getUserID p := wrap64 currentTime]> (mostRecentUpdatesPerUser pl);
     updates :=
       updates pl ++ [Update.mk (Z.of_nat (length (updates pl))) (wrap64 currentTime) p];
     workingSnapshot := workingSnapshot pl;
     shared := shared pl;
     recentSnapshot := recentSnapshot pl |}.

(** [Place::update(p)], with the clock reading it takes under the lock as
    an argument: [system_clock::now().time_since_epoch().count()], a signed
    64-bit count of ticks (microseconds, by the comment on
    [mostRecentUpdatesPerUser]). In [recent > currentTime - cooldown] the
    right-hand side is computed on signed integers and converted to
    [uint64_t] for the comparison with the map's [uint64_t]. *)
Definition update (cfg : Config.t) (currentTime : Z) (p : Pixel.t) (pl : t)
  : bool * t :=
  if decide (Pixel.getX p >= width pl ∨ Pixel.getY p >= height pl)
  then (false, pl)
  else
    match mostRecentUpdatesPerUser pl !! Pixel.getUserID p with
    | Some recent =>
        if decide (recent > wrap64 (currentTime - Config.cooldown cfg))
        then (false, pl)
        else (true, accept currentTime p pl)
    | None => (true, accept currentTime p pl)
    end.

(** [Place::getCurrentState()], first block (under the exclusive lock):
    catch the working snapshot up, republish it when it is far enough
    ahead, and take a pointer to the recent snapshot. *)
Definition getCurrentState_exclusive (cfg : Config.t) (pl : t) : option (ptr * t) :=
  working ← Snapshot.apply (updates pl) (workingSnapshot pl);
  let pl1 := set_workingSnapshot working pl in
  recent ← shared pl1 !! recentSnapshot pl1;
  let pl2 :=
    if decide (Snapshot.recordNumber working >
               wrap64 (Snapshot.recordNumber recent + Config.republish cfg))
    then let '(r, pl') := make_shared working pl1 in set_recentSnapshot r pl'
    else pl1 in
  Some (recentSnapshot pl2, pl2).

(** [Place::getCurrentState()], the rest: copy the object behind
    [recentCopy] and, under the shared lock, apply the log as it is then. *)
Definition getCurrentState_shared (recentCopy : ptr) (pl : t) : option Snapshot.t :=
  returnValue ← shared pl !! recentCopy;
  Snapshot.apply (updates pl) returnValue.

(** A call of [getCurrentState] that no other thread interleaves with. *)
Definition getCurrentState (cfg : Config.t) (pl : t) : option (Snapshot.t * t) :=
  '(recentCopy, pl') ← getCurrentState_exclusive cfg pl;
  returnValue ← getCurrentState_shared recentCopy pl';
  Some (returnValue, pl').

End Place.

(** ** Reading the log without a cache

    What a snapshot should hold, said without the loop of [apply] and
    without the cache of [Place]. *)

(** One assignment [pixels[index] = pixel] that is known to be in range. *)
Definition paint (width : Z) (pixels : list Pixel.t) (u : Update.t) : list Pixel.t :=
  <[Z.to_nat (Snapshot.index width (Update.pixel u)) := Update.pixel u]> pixels.

(** The assignments of a run of updates, first to last. *)
Definition replay (width : Z) (us : list Update.t) (pixels : list Pixel.t)
  : list Pixel.t :=
  foldl (paint width) pixels us.

(** The last update of [us] that lands on cell [j]. *)
Definition last_hit (width : Z) (j : nat) (us : list Update.t) : option Update.t :=
  last (filter (λ u, Z.to_nat (Snapshot.index width (Update.pixel u)) = j) us).

(** The last update of [us] written at the coordinates [(x, y)]. *)
Definition last_write (x y : Z) (us : list Update.t) : option Update.t :=
  last (filter (λ u, Pixel.getX (Update.pixel u) = x ∧ Pixel.getY (Update.pixel u) = y) us).

(** The updates of a log whose record number lies in [[from, upto)]. *)
Definition numbered_between (from upto : Z) (log : list Update.t) : list Update.t :=
  filter (λ u, from ≤ Update.recordNumber u < upto) log.

(** A pixel that passes the bounds check of [update] on a [w] x [h] grid. *)
Definition in_grid (w h : Z) (p : Pixel.t) : Prop :=
  0 ≤ Pixel.getX p < w ∧ 0 ≤ Pixel.getY p < h.

(** No update of [us] is stored outside of a vector of [n] cells. *)
Definition in_range (w : Z) (n : nat) (us : list Update.t) : Prop :=
  Forall (λ u, Snapshot.index w (Update.pixel u) < Z.of_nat n) us.

(** The i-th update of the log carries record number [i]. *)
Definition numbered (log : list Update.t) : Prop :=
  ∀ (i : nat) u, log !! i = Some u → Update.recordNumber u = Z.of_nat i.

(** The snapshot of a [w] x [h] grid on which the whole of [log] has been
    replayed. *)
Definition full (w h : Z) (log : list Update.t) : Snapshot.t :=
  {| Snapshot.width := w;
     Snapshot.height := h;
     Snapshot.pixels := replay w log (Snapshot.pixels (Snapshot.make w h));
     Snapshot.recordNumber := Z.of_nat (length log) |}.

(** A snapshot that holds some prefix of the log, replayed. *)
Definition consistent (w h : Z) (log : list Update.t) (s : Snapshot.t) : Prop :=
  ∃ n : nat, (n ≤ length log)%nat ∧ s = full w h (take n log).

(** The naive reader the tiered one is compared with: on every read it
    makes a full copy of the all-default grid and catches it up on the
    whole log. It keeps no snapshot between reads. *)
Module Naive.

Definition readSnapshot (pl : Place.t) : option Snapshot.t :=
  Snapshot.apply (Place.updates pl) (Snapshot.make (Place.width pl) (Place.height pl)).

End Naive.

(** The three outcomes the specification gives [submitWrite]. *)
Inductive Outcome : Type :=
  | Accepted (seq : Z)
  | RejectedBounds
  | RejectedCooldown.

(** [submitWrite] as the specification words it: bounds, then the rate
    limiter with [now - lastAcceptedTimestamp < cooldownDuration] on
    unbounded integers, then the append. The state is the rate limiter's map
    and the log. *)
Definition spec_submitWrite (w h cooldown : Z) (now : Z) (p : Pixel.t)
    (st : gmap Z Z * list Update.t) : Outcome * (gmap Z Z * list Update.t) :=
  if decide (Pixel.getX p >= w ∨ Pixel.getY p >= h) then (RejectedBounds, st)
  else
    let allowed :=
      match st.1 !! Pixel.getUserID p with
      | Some last => bool_decide (¬ now - last < cooldown)
      | None => true
      end in
    if allowed
    then (Accepted (Z.of_nat (length st.2)),
          (<[Pixel.getUserID p := now]> st.1,
           st.2 ++ [Update.mk (Z.of_nat (length st.2)) now p]))
    else (RejectedCooldown, st).

(** ** Executions *)

(** One atomic step of a [Place]: a call of [update] with a well-typed
    pixel, or the exclusive block of a call of [getCurrentState]. The second
    block of [getCurrentState] changes nothing of the [Place]. *)
Inductive step (cfg : Config.t) : Place.t → Place.t → Prop :=
  | step_update currentTime p pl :
      Pixel.wf p →
      step cfg pl (Place.update cfg currentTime p pl).2
  | step_exclusive pl r pl' :
      Place.getCurrentState_exclusive cfg pl = Some (r, pl') →
      step cfg pl pl'.

Definition reachable (cfg : Config.t) (pl : Place.t) : Prop :=
  rtc (step cfg) (Place.make cfg) pl.

(** What every reachable [Place] satisfies. *)
Record Inv (cfg : Config.t) (pl : Place.t) : Prop := {
  inv_width : Place.width pl = Config.width cfg;
  inv_height : Place.height pl = Config.height cfg;
  inv_in_grid :
    Forall (λ u, in_grid (Config.width cfg) (Config.height cfg) (Update.pixel u))
           (Place.updates pl);
  inv_numbered : numbered (Place.updates pl);
  inv_working :
    consistent (Config.width cfg) (Config.height cfg) (Place.updates pl)
               (Place.workingSnapshot pl);
  inv_shared :
    Forall (consistent (Config.width cfg) (Config.height cfg) (Place.updates pl))
           (Place.shared pl);
  inv_recent : (Place.recentSnapshot pl < length (Place.shared pl))%nat
}.

(** A client's calls, and what it sees of each. *)
Inductive call : Type :=
  | Write (currentTime : Z) (p : Pixel.t)
  | Read.

Inductive seen : Type :=
  | Wrote (ok : bool)
  | Got (s : Snapshot.t).

Definition call_wf (c : call) : Prop :=
  match c with
  | Write _ p => Pixel.wf p
  | Read => True
  end.

(** The calls run one after the other on the tiered [Place]; [None] when a
    call meets undefined behaviour. *)
Fixpoint run (cfg : Config.t) (calls : list call) (pl : Place.t) : option (list seen) :=
  match calls with
  | [] => Some []
  | Write currentTime p :: rest =>
      let '(ok, pl') := Place.update cfg currentTime p pl in
      out ← run cfg rest pl';
      Some (Wrote ok :: out)
  | Read :: rest =>
      '(s, pl') ← Place.getCurrentState cfg pl;
      out ← run cfg rest pl';
      Some (Got s :: out)
  end.

(** The same calls with the naive reader. *)
Fixpoint run_naive (cfg : Config.t) (calls : list call) (pl : Place.t) : option (list seen) :=
  match calls with
  | [] => Some []
  | Write currentTime p :: rest =>
      let '(ok, pl') := Place.update cfg currentTime p pl in
      out ← run_naive cfg rest pl';
      Some (Wrote ok :: out)
  | Read :: rest =>
      s ← Naive.readSnapshot pl;
      out ← run_naive cfg rest pl;
      Some (Got s :: out)
  end.

(** A sequence of write attempts: for each, whether it succeeded and, if it
    did, the record number of the update it appended. *)
Fixpoint submit (cfg : Config.t) (attempts : list (Z * Pixel.t)) (pl : Place.t)
  : list (option Z) * Place.t :=
  match attempts with
  | [] => ([], pl)
  | (currentTime, p) :: rest =>
      let '(ok, pl') := Place.update cfg currentTime p pl in
      let assigned :=
        if ok then Update.recordNumber <$> last (Place.updates pl') else None in
      let '(out, pl'') := submit cfg rest pl' in
      (assigned :: out, pl'')
  end.

(** ** Further definitions used by the statements *)

(** Two places with the same grid, log and users' timestamps: [update]
    cannot tell them apart. *)
Definition same_log (pl1 pl2 : Place.t) : Prop :=
  Place.width pl1 = Place.width pl2 ∧
  Place.height pl1 = Place.height pl2 ∧
  Place.mostRecentUpdatesPerUser pl1 = Place.mostRecentUpdatesPerUser pl2 ∧
  Place.updates pl1 = Place.updates pl2.

(** The first test of [update] fails the pixel. *)
Definition out_of_bounds (p : Pixel.t) (pl : Place.t) : Prop :=
  Pixel.getX p >= Place.width pl ∨ Pixel.getY p >= Place.height pl.

(** The second test of [update] fails the user: there is an entry for the
    user and [update]'s comparison with the clock holds. *)
Definition cooling (cfg : Config.t) (now : Z) (p : Pixel.t) (pl : Place.t) : Prop :=
  ∃ recent,
    Place.mostRecentUpdatesPerUser pl !! Pixel.getUserID p = Some recent ∧
    recent > wrap64 (now - Config.cooldown cfg).

(** The part of a [Place] the specification's [submitWrite] works on. *)
Definition spec_state (pl : Place.t) : gmap Z Z * list Update.t :=
  (Place.mostRecentUpdatesPerUser pl, Place.updates pl).

(** One hundred first writes, by the users 0 to 99. *)
Definition hundred_writes : list (Z * Pixel.t) :=
  (λ i, (1000000, Pixel.mk 0 0 0 i)) <$> seqZ 0 100.

(** Three writes of user 7 to the cell (1, 1), at [t0], one second later
    and 301 seconds later, with a read after the second and after the
    third. Ticks are microseconds. *)
Definition scenario (t0 : Z) : list call :=
  [Write t0 (Pixel.mk 1 1 5 7);
   Write (t0 + 1000000) (Pixel.mk 1 1 9 7);
   Read;
   Write (t0 + 301000000) (Pixel.mk 1 1 9 7);
   Read].

Definition scenario_writes (t0 : Z) : list (Z * Pixel.t) :=
  [(t0, Pixel.mk 1 1 5 7);
   (t0 + 1000000, Pixel.mk 1 1 9 7);
   (t0 + 301000000, Pixel.mk 1 1 9 7)].

(** A 3 x 3 grid with a cooldown of five minutes. *)
Definition three_by_three : Config.t :=
  {| Config.width := 3; Config.height := 3;
     Config.cooldown := 5 * 60 * 1000000; Config.republish := 100 |}.

(** The 3 x 3 grid with [p] at (1, 1) and the constructor's pixels
    elsewhere. *)
Definition centre (p : Pixel.t) (n : Z) : Snapshot.t :=
  {| Snapshot.width := 3; Snapshot.height := 3;
     Snapshot.pixels :=
       [Pixel.mk 0 0 0 0; Pixel.mk 1 0 0 0; Pixel.mk 2 0 0 0;
        Pixel.mk 0 1 0 0; p; Pixel.mk 2 1 0 0;
        Pixel.mk 0 2 0 0; Pixel.mk 1 2 0 0; Pixel.mk 2 2 0 0];
     Snapshot.recordNumber := n |}.

(** ** The rest of the program *)

(** The last update of the log made by a user. *)
Definition last_by (user : Z) (log : list Update.t) : option Update.t :=
  last (filter (λ u, Pixel.getUserID (Update.pixel u) = user) log).

(** [main()]: up to three calls of [update(Pixel{0,0,0,0})] on a new
    [Place], with a [sleep(3)] before the second and the third. The
    arguments are the clock readings of the three calls; the result is the
    lines written to [std::cout]. *)
Definition main (clock1 clock2 clock3 : Z) : list string :=
  let place := Place.make Config.source in
  let '(result, place) := Place.update Config.source clock1 (Pixel.mk 0 0 0 0) place in
  if result then
    let '(result, place) := Place.update Config.source clock2 (Pixel.mk 0 0 0 0) place in
    if result then ["Failed!"%string]
    else
      let '(result, place) := Place.update Config.source clock3 (Pixel.mk 0 0 0 0) place in
      "OK!"%string :: (if result then ["Still ok!"%string] else [])
  else [].

(** * Properties *)

#[global] Arguments Snapshot.make : simpl never.

Ltac snap :=
  cbn [full Snapshot.width Snapshot.height Snapshot.pixels Snapshot.recordNumber].

Ltac place :=
  cbn [mbind option_bind fst snd
       Place.set_workingSnapshot Place.set_recentSnapshot Place.make_shared
       Place.accept Place.width Place.height Place.mostRecentUpdatesPerUser
       Place.updates Place.workingSnapshot Place.shared Place.recentSnapshot].

Tactic Notation "place" "in" hyp(H) :=
  cbn [mbind option_bind fst snd
       Place.set_workingSnapshot Place.set_recentSnapshot Place.make_shared
       Place.accept Place.width Place.height Place.mostRecentUpdatesPerUser
       Place.updates Place.workingSnapshot Place.shared Place.recentSnapshot] in H.


(** ** Wrap-around *)

Lemma wrap64_small z : is_u64 z → wrap64 z = z.
Proof. unfold is_u64, wrap64. intros. apply Z.mod_small. lia. Qed.

Lemma wrap64_is_u64 z : is_u64 (wrap64 z).
Proof. unfold is_u64, wrap64. apply Z.mod_pos_bound. lia. Qed.

Lemma wrap64_le z : 0 ≤ z → wrap64 z ≤ z.
Proof. unfold wrap64. intros. apply Z.mod_le; lia. Qed.

Lemma index_nonneg w p : 0 ≤ Snapshot.index w p.
Proof. unfold Snapshot.index. apply wrap64_is_u64. Qed.

(** The index of a pixel of the grid is below [w * h], wrapped or not. *)
Lemma index_in_grid w h p :
  in_grid w h p → 0 ≤ Snapshot.index w p < w * h.
Proof.
  intros [[Hx0 Hx] [Hy0 Hy]]. split; [apply index_nonneg|].
  unfold Snapshot.index.
  assert (0 ≤ Pixel.getY p * w) by nia.
  pose proof (wrap64_le (Pixel.getY p * w)).
  pose proof (wrap64_is_u64 (Pixel.getY p * w)) as [? _].
  pose proof (wrap64_le (wrap64 (Pixel.getY p * w) + Pixel.getX p)).
  nia.
Qed.

(** On a grid of fewer than [2^64] cells nothing wraps. *)
Lemma index_exact w h p :
  w * h ≤ 2 ^ 64 → in_grid w h p →
  Snapshot.index w p = Pixel.getY p * w + Pixel.getX p.
Proof.
  intros Hwh [[Hx0 Hx] [Hy0 Hy]]. unfold Snapshot.index.
  rewrite (wrap64_small (Pixel.getY p * w)) by (unfold is_u64; nia).
  apply wrap64_small. unfold is_u64. nia.
Qed.

(** ** The grid a snapshot starts from *)

Section rows.
Context {A B : Type} (f : A → list B) (n : nat).
Hypothesis row_length : ∀ a, length (f a) = n.

Lemma length_bind_rows (l : list A) : length (l ≫= f) = (length l * n)%nat.
Proof.
  induction l as [|a l IH]; [done|].
  rewrite bind_cons, length_app, IH, row_length. simpl. lia.
Qed.

Lemma lookup_bind_rows (l : list A) (i j : nat) :
  (j < n)%nat → (l ≫= f) !! (i * n + j)%nat = l !! i ≫= λ a, f a !! j.
Proof.
  intros Hj. revert i. induction l as [|a l IH]; intros i.
  - by rewrite lookup_nil.
  - rewrite bind_cons. destruct i as [|i]; simpl.
    + rewrite lookup_app_l by (rewrite row_length; lia). done.
    + rewrite lookup_app_r by (rewrite row_length; lia).
      rewrite row_length. rewrite <- IH. f_equal. lia.
Qed.
End rows.

Lemma length_row w y : length (Snapshot.row w y) = Z.to_nat w.
Proof. unfold Snapshot.row. by rewrite length_fmap, length_seqZ. Qed.

Lemma length_make w h :
  length (Snapshot.pixels (Snapshot.make w h)) = (Z.to_nat h * Z.to_nat w)%nat.
Proof.
  simpl. rewrite (length_bind_rows _ (Z.to_nat w)) by apply length_row.
  by rewrite length_seqZ.
Qed.

Lemma length_make_Z w h :
  0 ≤ w → 0 ≤ h → Z.of_nat (length (Snapshot.pixels (Snapshot.make w h))) = w * h.
Proof. intros. rewrite length_make. lia. Qed.

(** Cell [(x, y)] of a fresh snapshot is [Pixel(x, y, 0, defaultColor)]. *)
Lemma lookup_make w h x y :
  0 ≤ x < w → 0 ≤ y < h →
  Snapshot.pixels (Snapshot.make w h) !! Z.to_nat (y * w + x)
  = Some (Pixel.mk x y 0 Pixel.defaultColor).
Proof.
  intros Hx Hy. simpl.
  replace (Z.to_nat (y * w + x)) with (Z.to_nat y * Z.to_nat w + Z.to_nat x)%nat by nia.
  rewrite (lookup_bind_rows _ (Z.to_nat w)) by (apply length_row || lia).
  assert (seqZ 0 h !! Z.to_nat y = Some y) as ->.
  { apply lookup_seqZ. lia. }
  simpl. unfold Snapshot.row. rewrite list_lookup_fmap.
  assert (seqZ 0 w !! Z.to_nat x = Some x) as ->.
  { apply lookup_seqZ. lia. }
  done.
Qed.

(** ** [Snapshot::apply] against [replay] *)

Lemma length_paint w px u : length (paint w px u) = length px.
Proof. apply length_insert. Qed.

Lemma length_replay w us px : length (replay w us px) = length px.
Proof.
  unfold replay. revert px. induction us as [|u us IH]; intros px; simpl; [done|].
  by rewrite IH, length_paint.
Qed.

Lemma replay_app w us vs px : replay w (us ++ vs) px = replay w vs (replay w us px).
Proof. apply foldl_app. Qed.

Lemma store_in_range px i p :
  i < Z.of_nat (length px) → Snapshot.store px i p = Some (<[Z.to_nat i := p]> px).
Proof. intros. unfold Snapshot.store. by rewrite decide_True. Qed.

Lemma store_Some px i p px' :
  Snapshot.store px i p = Some px' →
  i < Z.of_nat (length px) ∧ px' = <[Z.to_nat i := p]> px.
Proof. unfold Snapshot.store. case_decide; naive_solver. Qed.

Lemma apply_loop_replay w us px :
  in_range w (length px) us → Snapshot.apply_loop w us px = Some (replay w us px).
Proof.
  revert px. induction us as [|u us IH]; intros px Hr; [done|].
  apply Forall_cons in Hr as [Hu Hus]. simpl.
  rewrite store_in_range by done. cbn [mbind option_bind].
  apply IH. unfold in_range. by rewrite length_paint.
Qed.

Lemma apply_loop_Some w us px px' :
  Snapshot.apply_loop w us px = Some px' →
  in_range w (length px) us ∧ px' = replay w us px.
Proof.
  revert px. induction us as [|u us IH]; intros px H; simpl in H.
  - split; [apply Forall_nil_2 | by simplify_eq].
  - destruct (Snapshot.store px _ _) as [px1|] eqn:Hst; [|done]. simpl in H.
    apply store_Some in Hst as [Hi ->].
    apply IH in H as [Hr ->]. rewrite length_insert in Hr.
    split; [by constructor | done].
Qed.

Lemma apply_Some log s s' :
  Snapshot.apply log s = Some s' →
  Snapshot.width s' = Snapshot.width s ∧
  Snapshot.height s' = Snapshot.height s ∧
  Snapshot.recordNumber s' = Z.of_nat (length log) ∧
  Snapshot.pixels s' =
    replay (Snapshot.width s) (drop (Z.to_nat (Snapshot.recordNumber s)) log)
           (Snapshot.pixels s).
Proof.
  unfold Snapshot.apply. intros H.
  destruct (Snapshot.apply_loop _ _ _) as [px|] eqn:Hl; [|done].
  apply apply_loop_Some in Hl as [_ ->]. by simplify_eq/=.
Qed.

Lemma apply_replay log s :
  in_range (Snapshot.width s) (length (Snapshot.pixels s))
           (drop (Z.to_nat (Snapshot.recordNumber s)) log) →
  Snapshot.apply log s =
    Some {| Snapshot.width := Snapshot.width s;
            Snapshot.height := Snapshot.height s;
            Snapshot.pixels :=
              replay (Snapshot.width s)
                     (drop (Z.to_nat (Snapshot.recordNumber s)) log) (Snapshot.pixels s);
            Snapshot.recordNumber := Z.of_nat (length log) |}.
Proof. intros H. unfold Snapshot.apply. by rewrite apply_loop_replay. Qed.

(** A store past the end of the vector is reported, not ignored. *)
Example apply_out_of_range :
  Snapshot.apply [Update.mk 0 0 (Pixel.mk 5 5 1 1)] (Snapshot.make 2 2) = None.
Proof. reflexivity. Qed.

(** ** Last write wins *)

Lemma last_hit_snoc w j us u :
  last_hit w j (us ++ [u]) =
    if decide (Z.to_nat (Snapshot.index w (Update.pixel u)) = j)
    then Some u else last_hit w j us.
Proof.
  unfold last_hit. rewrite filter_app, filter_cons, filter_nil.
  case_decide.
  - by rewrite last_snoc.
  - by rewrite app_nil_r.
Qed.

(** After a replay a cell holds the pixel of the last update that landed on
    it, and its old content if none did. *)
Lemma lookup_replay w us px j :
  in_range w (length px) us →
  replay w us px !! j =
    match last_hit w j us with
    | Some u => Some (Update.pixel u)
    | None => px !! j
    end.
Proof.
  induction us as [|u us IH] using rev_ind; intros Hr; [done|].
  apply Forall_app in Hr as [Hus Hu]. rewrite Forall_singleton in Hu.
  rewrite replay_app, last_hit_snoc. simpl. unfold paint at 1.
  case_decide as Hj.
  - subst j. apply list_lookup_insert_eq. rewrite length_replay.
    pose proof (index_nonneg w (Update.pixel u)). lia.
  - rewrite list_lookup_insert_ne by done. by apply IH.
Qed.

(** ** Record numbers and positions *)

Lemma numbered_app_inv l k : numbered (l ++ k) → numbered l.
Proof. intros H i u Hi. apply H. by apply lookup_app_l_Some. Qed.

Lemma numbered_snoc l u :
  numbered l → Update.recordNumber u = Z.of_nat (length l) → numbered (l ++ [u]).
Proof.
  intros Hl Hu i v Hi. apply lookup_snoc_Some in Hi as [[_ Hi]|[-> ->]]; auto.
Qed.

(** In a numbered log, the updates numbered in [[a, b)] are those at the
    positions [a], ..., [b - 1]. *)
Lemma numbered_between_drop_take a b log :
  numbered log → 0 ≤ a →
  numbered_between a b log = drop (Z.to_nat a) (take (Z.to_nat b) log).
Proof.
  intros Hn Ha. induction log as [|u log IH] using rev_ind.
  { by rewrite take_nil, drop_nil. }
  assert (Update.recordNumber u = Z.of_nat (length log)) as Hu.
  { apply Hn. by rewrite list_lookup_middle. }
  apply numbered_app_inv in Hn. specialize (IH Hn).
  unfold numbered_between in *. rewrite filter_app, filter_cons, filter_nil, IH.
  destruct (decide (Z.to_nat b ≤ length log)%nat) as [Hb|Hb].
  - rewrite take_app_le by done. rewrite decide_False by lia. by rewrite app_nil_r.
  - rewrite !take_ge by (rewrite ?length_app; simpl; lia).
    rewrite drop_app. f_equal.
    case_decide.
    + replace (Z.to_nat a - length log)%nat with 0%nat by lia. done.
    + rewrite drop_ge by (simpl; lia). done.
Qed.

(** ** [Snapshot::apply]: what one call does, and a second one *)

(** The source's [apply] has no upper bound of its own: it stops at the
    size of the vector it is handed. [apply(log, k)] of the specification is
    therefore the call made when the log holds [k] updates, that is
    [Snapshot.apply (take k log)]; for [k = length log] this is
    [Snapshot.apply log]. *)

(** C3. For every snapshot [s], every log and every [k]: if [apply(log, k)]
    turns [s] into [s'], then a second [apply(log, k)] right after it finds
    no update left to apply and returns [s'] itself, cells and
    [recordNumber] included. *)
Theorem apply_twice (s s' : Snapshot.t) (log : list Update.t) (k : nat) :
  Snapshot.apply (take k log) s = Some s' →
  drop (Z.to_nat (Snapshot.recordNumber s')) (take k log) = [] ∧
  Snapshot.apply (take k log) s' = Some s'.
Proof.
  intros H. apply apply_Some in H as (Hw & Hh & Hn & Hpx).
  assert (drop (Z.to_nat (Snapshot.recordNumber s')) (take k log) = []) as Hd.
  { rewrite Hn, Nat2Z.id. apply drop_all. }
  split; [done|].
  unfold Snapshot.apply. rewrite Hd. simpl. rewrite <- Hn. by destruct s'.
Qed.

Lemma apply_twice_witness :
  let log := [Update.mk 0 10 (Pixel.mk 1 0 5 7); Update.mk 1 20 (Pixel.mk 0 1 6 8)] in
  let s := Snapshot.make 2 2 in
  let s' := full 2 2 (take 1 log) in
  Snapshot.apply (take 1 log) s = Some s' ∧
  drop (Z.to_nat (Snapshot.recordNumber s')) (take 1 log) = [] ∧
  Snapshot.apply (take 1 log) s' = Some s'.
Proof.
  intros log s s'.
  assert (Snapshot.apply (take 1 log) s = Some s') as H by reflexivity.
  split; [exact H | exact (apply_twice s s' log 1 H)].
Defined.



(** ** Snapshots that hold a prefix of the log *)

Lemma full_nil w h : full w h [] = Snapshot.make w h.
Proof. reflexivity. Qed.

Lemma consistent_make w h log : consistent w h log (Snapshot.make w h).
Proof. exists 0%nat. split; [lia|]. by rewrite take_0. Qed.

Lemma consistent_full w h log : consistent w h log (full w h log).
Proof. exists (length log). split; [lia|]. by rewrite take_ge. Qed.

(** The log only grows at its end, so a snapshot stays consistent. *)
Lemma consistent_app w h log more s :
  consistent w h log s → consistent w h (log ++ more) s.
Proof.
  intros (n & Hn & ->). exists n. split.
  - rewrite length_app. lia.
  - by rewrite take_app_le.
Qed.

Lemma in_range_in_grid w h us :
  Forall (λ u, in_grid w h (Update.pixel u)) us →
  in_range w (Z.to_nat h * Z.to_nat w) us.
Proof.
  intros H. eapply Forall_impl; [exact H|]. intros u Hu. simpl.
  pose proof (index_in_grid _ _ _ Hu). destruct Hu as [? ?]. nia.
Qed.

(** Catching a consistent snapshot up gives the replay of the whole log,
    whatever prefix it held before. *)
Lemma apply_consistent w h log s :
  Forall (λ u, in_grid w h (Update.pixel u)) log →
  consistent w h log s →
  Snapshot.apply log s = Some (full w h log).
Proof.
  intros Hg (n & Hn & ->).
  rewrite apply_replay; snap; rewrite length_take_le, Nat2Z.id by done.
  - unfold full. by rewrite <- replay_app, take_drop.
  - rewrite length_replay, length_make. apply in_range_in_grid.
    rewrite <- (take_drop n log) in Hg. by apply Forall_app in Hg as [_ ?].
Qed.

(** ** The invariant of [Place] *)

Lemma Inv_make cfg : Inv cfg (Place.make cfg).
Proof.
  split; simpl; try done.
  - apply consistent_make.
  - apply Forall_singleton, consistent_make.
  - lia.
Qed.

Lemma update_cases cfg now p pl :
  Place.update cfg now p pl = (false, pl) ∨
  (¬ (Pixel.getX p >= Place.width pl ∨ Pixel.getY p >= Place.height pl) ∧
   Place.update cfg now p pl = (true, Place.accept now p pl)).
Proof.
  unfold Place.update. case_decide; [by left|].
  destruct (_ !! _); [case_decide|]; auto.
Qed.

Lemma Inv_accept cfg now p pl :
  in_grid (Config.width cfg) (Config.height cfg) p →
  Inv cfg pl → Inv cfg (Place.accept now p pl).
Proof.
  intros Hp [Hw Hh Hg Hn Hwk Hsh Hr]. split; simpl; try done.
  - apply Forall_app. split; [done|]. by apply Forall_singleton.
  - by apply numbered_snoc.
  - by apply consistent_app.
  - eapply Forall_impl; [done|]. intros s. apply consistent_app.
Qed.

Lemma Inv_update cfg now p pl :
  Pixel.wf p → Inv cfg pl → Inv cfg (Place.update cfg now p pl).2.
Proof.
  intros (Hx & Hy & _) HI.
  destruct (update_cases cfg now p pl) as [->|[Hb ->]]; [done|]. simpl.
  apply Inv_accept; [|done].
  rewrite <- (inv_width _ _ HI), <- (inv_height _ _ HI).
  unfold in_grid, is_u64 in *. lia.
Qed.

(** What the exclusive block of [getCurrentState] does to a [Place] that
    satisfies the invariant: it returns, the working snapshot holds the whole
    log, the objects behind the old pointers are where they were, and the
    pointer it hands out leads to a consistent snapshot. *)
Lemma exclusive_Inv cfg pl :
  Inv cfg pl →
  ∃ r pl',
    Place.getCurrentState_exclusive cfg pl = Some (r, pl') ∧
    Inv cfg pl' ∧
    r = Place.recentSnapshot pl' ∧
    Place.updates pl' = Place.updates pl ∧
    Place.mostRecentUpdatesPerUser pl' = Place.mostRecentUpdatesPerUser pl ∧
    Place.workingSnapshot pl' =
      full (Config.width cfg) (Config.height cfg) (Place.updates pl) ∧
    Place.shared pl `prefix_of` Place.shared pl'.
Proof.
  intros [Hw Hh Hg Hn Hwk Hsh Hr].
  unfold Place.getCurrentState_exclusive.
  rewrite (apply_consistent _ _ _ _ Hg Hwk). place.
  destruct (lookup_lt_is_Some_2 _ _ Hr) as [recent Hrecent].
  rewrite Hrecent. place.
  pose proof (consistent_full (Config.width cfg) (Config.height cfg) (Place.updates pl)).
  case_decide; place; eexists _, _; (split; [reflexivity|]); place.
  - repeat split; place; try done.
    + apply Forall_app. split; [done|]. by apply Forall_singleton.
    + rewrite length_app. simpl. lia.
    + by apply prefix_app_r.
  - repeat split; place; done.
Qed.

Lemma step_Inv cfg pl pl' : step cfg pl pl' → Inv cfg pl → Inv cfg pl'.
Proof.
  intros [now p pl0 Hp | pl0 r pl0' Hex] HI.
  - by apply Inv_update.
  - destruct (exclusive_Inv _ _ HI) as (r' & pl'' & Hex' & HI' & _). congruence.
Qed.

Lemma reachable_Inv cfg pl : reachable cfg pl → Inv cfg pl.
Proof.
  unfold reachable. intros H.
  eapply (rtc_ind_r (Inv cfg)); [apply Inv_make | | exact H].
  intros pl1 pl2 _ Hs HI. by eapply step_Inv.
Qed.

Lemma steps_Inv cfg pl pl' : rtc (step cfg) pl pl' → Inv cfg pl → Inv cfg pl'.
Proof. induction 1; eauto using step_Inv. Qed.

(** Steps never shrink the log nor move the shared objects. *)
Lemma step_prefix cfg pl pl' :
  step cfg pl pl' → Inv cfg pl →
  Place.updates pl `prefix_of` Place.updates pl' ∧
  Place.shared pl `prefix_of` Place.shared pl'.
Proof.
  intros [now p pl0 Hp | pl0 r pl0' Hex] HI.
  - destruct (update_cases cfg now p pl0) as [->|[Hb ->]]; simpl; [done|].
    split; [by apply prefix_app_r | done].
  - destruct (exclusive_Inv _ _ HI) as (r' & pl'' & Hex' & _ & _ & Hu & _ & _ & Hs).
    simplify_eq. by rewrite Hu.
Qed.

Lemma steps_prefix cfg pl pl' :
  rtc (step cfg) pl pl' → Inv cfg pl →
  Place.updates pl `prefix_of` Place.updates pl' ∧
  Place.shared pl `prefix_of` Place.shared pl'.
Proof.
  induction 1 as [|pl1 pl2 pl3 Hs _ IH]; intros HI; [done|].
  destruct (step_prefix _ _ _ Hs HI) as [? ?].
  destruct (IH (step_Inv _ _ _ Hs HI)) as [? ?].
  split; by etrans.
Qed.

(** ** Reads *)

Lemma filter_Forall_iff {A} (P Q R : A → Prop)
    `{!∀ x, Decision (P x)} `{!∀ x, Decision (Q x)} (l : list A) :
  Forall R l → (∀ x, R x → P x ↔ Q x) → filter P l = filter Q l.
Proof.
  intros HR HPQ. induction HR as [|x l Hx _ IH]; [done|].
  rewrite !filter_cons, IH.
  destruct (decide (P x)) as [HP|HP], (decide (Q x)) as [HQ|HQ]; try done;
    exfalso; [apply HQ | apply HP]; by apply (HPQ x Hx).
Qed.

(** On a grid of fewer than [2^64] cells two pixels of the grid share a
    cell only if they share their coordinates. *)
Lemma last_hit_last_write w h x y log :
  0 ≤ w → w * h ≤ 2 ^ 64 → 0 ≤ x < w → 0 ≤ y < h →
  Forall (λ u, in_grid w h (Update.pixel u)) log →
  last_hit w (Z.to_nat (y * w + x)) log = last_write x y log.
Proof.
  intros Hw Hwh Hx Hy Hg. unfold last_hit, last_write. f_equal.
  eapply filter_Forall_iff; [exact Hg|]. intros u Hu. simpl in *.
  rewrite (index_exact w h) by done. destruct Hu as [? ?]. split.
  - intros ?. assert (Pixel.getY (Update.pixel u) = y) by nia. split; nia.
  - intros [-> ->]. done.
Qed.

(** A cell of the replayed log holds the last update written at its
    coordinates, and the constructor's pixel if there is none. *)
Lemma lookup_full w h x y log :
  0 ≤ w → w * h ≤ 2 ^ 64 → 0 ≤ x < w → 0 ≤ y < h →
  Forall (λ u, in_grid w h (Update.pixel u)) log →
  Snapshot.pixels (full w h log) !! Z.to_nat (y * w + x) =
    Some (match last_write x y log with
          | Some u => Update.pixel u
          | None => Pixel.mk x y 0 Pixel.defaultColor
          end).
Proof.
  intros Hw Hwh Hx Hy Hg. snap.
  rewrite lookup_replay by (rewrite length_make; by apply in_range_in_grid).
  rewrite (last_hit_last_write w h) by done.
  destruct (last_write x y log); [done|]. by apply lookup_make.
Qed.

Lemma numbered_between_all log :
  numbered log → numbered_between 0 (Z.of_nat (length log)) log = log.
Proof.
  intros Hn. rewrite numbered_between_drop_take by (done || lia).
  rewrite Nat2Z.id, take_ge by done. done.
Qed.

Lemma naive_full cfg pl :
  Inv cfg pl →
  Naive.readSnapshot pl =
    Some (full (Config.width cfg) (Config.height cfg) (Place.updates pl)).
Proof.
  intros HI. unfold Naive.readSnapshot.
  rewrite (inv_width _ _ HI), (inv_height _ _ HI).
  apply apply_consistent; [apply HI | apply consistent_make].
Qed.

(** The second block of [getCurrentState], through any pointer to a
    shared object. *)
Lemma shared_full cfg pl r :
  Inv cfg pl → (r < length (Place.shared pl))%nat →
  Place.getCurrentState_shared r pl =
    Some (full (Config.width cfg) (Config.height cfg) (Place.updates pl)).
Proof.
  intros HI Hr. unfold Place.getCurrentState_shared.
  destruct (lookup_lt_is_Some_2 _ _ Hr) as [s Hs]. rewrite Hs. place.
  apply apply_consistent; [apply HI|].
  eapply Forall_lookup_1; [apply (inv_shared _ _ HI) | exact Hs].
Qed.

Lemma getCurrentState_full cfg pl :
  Inv cfg pl →
  ∃ pl',
    Place.getCurrentState cfg pl =
      Some (full (Config.width cfg) (Config.height cfg) (Place.updates pl), pl') ∧
    Inv cfg pl' ∧
    Place.updates pl' = Place.updates pl ∧
    Place.mostRecentUpdatesPerUser pl' = Place.mostRecentUpdatesPerUser pl ∧
    step cfg pl pl'.
Proof.
  intros HI.
  destruct (exclusive_Inv _ _ HI) as (r & pl' & Hex & HI' & -> & Hu & Hm & _ & _).
  exists pl'. unfold Place.getCurrentState. rewrite Hex. place.
  rewrite (shared_full cfg) by (exact HI' || apply (inv_recent _ _ HI')). place.
  rewrite Hu.
  split_and!; try done. by econstructor.
Qed.

(** A call of [getCurrentState] that other threads interleave with: between
    its two blocks any number of steps may be taken. What it returns is the
    replay of the log as it is when the second block runs. *)
Lemma getCurrentState_interleaved cfg pl :
  reachable cfg pl →
  ∃ r pl1,
    Place.getCurrentState_exclusive cfg pl = Some (r, pl1) ∧
    ∀ pl2, rtc (step cfg) pl1 pl2 →
      Place.getCurrentState_shared r pl2 =
        Some (full (Config.width cfg) (Config.height cfg) (Place.updates pl2)) ∧
      Naive.readSnapshot pl2 = Place.getCurrentState_shared r pl2.
Proof.
  intros HI%reachable_Inv.
  destruct (exclusive_Inv _ _ HI) as (r & pl1 & Hex & HI1 & -> & _).
  exists (Place.recentSnapshot pl1), pl1. split; [done|]. intros pl2 Hsteps.
  pose proof (steps_Inv _ _ _ Hsteps HI1) as HI2.
  destruct (steps_prefix _ _ _ Hsteps HI1) as [_ Hsh%prefix_length].
  pose proof (inv_recent _ _ HI1).
  rewrite (shared_full cfg) by (done || lia).
  by rewrite (naive_full cfg).
Qed.

(** C1. Whatever the republish distance, a call of [getCurrentState] on a
    reachable [Place] returns; the snapshot's [recordNumber] is the length of
    the log; every cell holds the pixel of the last update numbered below
    that [recordNumber] that was written at its coordinates, and the
    constructor's pixel when there is none; and the snapshot is the one the
    naive reader (full copy of the default grid, full catch-up) returns. The
    call leaves the log and the users' timestamps as they were. *)
Theorem getCurrentState_naive (cfg : Config.t) (threshold : Z) (pl : Place.t) :
  Config.wf cfg →
  reachable (Config.with_republish threshold cfg) pl →
  ∃ s pl',
    Place.getCurrentState (Config.with_republish threshold cfg) pl = Some (s, pl') ∧
    Place.updates pl' = Place.updates pl ∧
    Place.mostRecentUpdatesPerUser pl' = Place.mostRecentUpdatesPerUser pl ∧
    Snapshot.recordNumber s = Z.of_nat (length (Place.updates pl)) ∧
    Z.of_nat (length (Snapshot.pixels s)) = Config.width cfg * Config.height cfg ∧
    (∀ x y, 0 ≤ x < Config.width cfg → 0 ≤ y < Config.height cfg →
       Snapshot.pixels s !! Z.to_nat (y * Config.width cfg + x) =
         Some (match last_write x y
                       (numbered_between 0 (Snapshot.recordNumber s) (Place.updates pl)) with
               | Some u => Update.pixel u
               | None => Pixel.mk x y 0 Pixel.defaultColor
               end)) ∧
    Naive.readSnapshot pl = Some s.
Proof.
  intros (Hw & Hh) HI%reachable_Inv.
  destruct (getCurrentState_full _ _ HI) as (pl' & Hget & _ & Hu & Hm & _).
  cbn [Config.with_republish Config.width Config.height] in Hget.
  eexists _, pl'. split; [exact Hget|]. snap.
  split_and!; try done.
  - rewrite length_replay, length_make. lia.
  - intros x y Hx Hy.
    rewrite numbered_between_all by apply HI.
    apply (lookup_full _ _ x y); try done; try lia; [nia | apply HI].
  - by rewrite (naive_full _ _ HI).
Qed.

Lemma getCurrentState_naive_witness :
  let cfg := Config.mk 3 3 300000000 100 in
  let pl := (Place.update cfg 1000 (Pixel.mk 1 1 5 7) (Place.make cfg)).2 in
  ∃ s pl',
    Place.getCurrentState (Config.with_republish 0 cfg) pl = Some (s, pl') ∧
    Place.updates pl' = Place.updates pl ∧
    Place.mostRecentUpdatesPerUser pl' = Place.mostRecentUpdatesPerUser pl ∧
    Snapshot.recordNumber s = Z.of_nat (length (Place.updates pl)) ∧
    Z.of_nat (length (Snapshot.pixels s)) = Config.width cfg * Config.height cfg ∧
    (∀ x y, 0 ≤ x < Config.width cfg → 0 ≤ y < Config.height cfg →
       Snapshot.pixels s !! Z.to_nat (y * Config.width cfg + x) =
         Some (match last_write x y
                       (numbered_between 0 (Snapshot.recordNumber s) (Place.updates pl)) with
               | Some u => Update.pixel u
               | None => Pixel.mk x y 0 Pixel.defaultColor
               end)) ∧
    Naive.readSnapshot pl = Some s.
Proof.
  intros cfg pl. apply (getCurrentState_naive cfg 0 pl).
  - unfold Config.wf. simpl. lia.
  - apply rtc_once.
    apply (step_update (Config.with_republish 0 cfg) 1000 (Pixel.mk 1 1 5 7)).
    unfold Pixel.wf, is_u64. simpl. lia.
Defined.

(** ** The tiered reader and the naive reader, call by call *)

Lemma update_same_log cfg now p pl1 pl2 :
  same_log pl1 pl2 →
  (Place.update cfg now p pl1).1 = (Place.update cfg now p pl2).1 ∧
  same_log (Place.update cfg now p pl1).2 (Place.update cfg now p pl2).2.
Proof.
  intros (Hw & Hh & Hm & Hu). unfold Place.update.
  rewrite Hw, Hh, Hm.
  case_decide; [done|].
  destruct (_ !! _); [case_decide|]; simpl; try done;
    unfold same_log; simpl; by rewrite Hm, Hu.
Qed.

Lemma run_run_naive cfg calls pl1 pl2 :
  Forall call_wf calls → Inv cfg pl1 → Inv cfg pl2 → same_log pl1 pl2 →
  is_Some (run cfg calls pl1) ∧ run cfg calls pl1 = run_naive cfg calls pl2.
Proof.
  intros Hwf. revert pl1 pl2.
  induction Hwf as [|c calls Hc _ IH]; intros pl1 pl2 HI1 HI2 Hs; [by split; eauto|].
  destruct c as [now p|]; simpl.
  - destruct (update_same_log cfg now p _ _ Hs) as [Hb Hs'].
    pose proof (Inv_update cfg now p _ Hc HI1) as HI1'.
    pose proof (Inv_update cfg now p _ Hc HI2) as HI2'.
    destruct (Place.update cfg now p pl1) as [b1 pl1'].
    destruct (Place.update cfg now p pl2) as [b2 pl2']. simpl in *. subst b2.
    destruct (IH _ _ HI1' HI2' Hs') as [[out Hout] Heq].
    rewrite <- Heq, Hout. by split; eauto.
  - destruct (getCurrentState_full _ _ HI1) as (pl1' & -> & HI1' & Hu & Hm & _).
    rewrite (naive_full _ _ HI2). place.
    assert (same_log pl1' pl2) as Hs'.
    { destruct Hs as (Hw & Hh & Hm' & Hu'). unfold same_log.
      rewrite (inv_width _ _ HI1'), (inv_height _ _ HI1'),
        (inv_width _ _ HI2), (inv_height _ _ HI2). split_and!; congruence. }
    destruct (IH _ _ HI1' HI2 Hs') as [[out Hout] Heq].
    destruct Hs as (_ & _ & _ & ->).
    rewrite <- Heq, Hout. by split; eauto.
Qed.

Lemma run_naive_republish cfg threshold calls pl :
  run_naive (Config.with_republish threshold cfg) calls pl = run_naive cfg calls pl.
Proof.
  revert pl. induction calls as [|[now p|] calls IH]; intros pl; simpl; [done| |].
  - change (Place.update (Config.with_republish threshold cfg) now p pl)
      with (Place.update cfg now p pl).
    destruct (Place.update cfg now p pl). by rewrite IH.
  - by rewrite IH.
Qed.

(** The republish distance cannot be observed: with any distance, the
    values a client sees are those of the naive reader. *)
Lemma run_naive_eq cfg threshold calls :
  Forall call_wf calls →
  is_Some (run (Config.with_republish threshold cfg) calls (Place.make cfg)) ∧
  run (Config.with_republish threshold cfg) calls (Place.make cfg) =
    run_naive cfg calls (Place.make cfg).
Proof.
  intros Hwf.
  rewrite <- (run_naive_republish cfg threshold).
  apply run_run_naive; try done; try apply (Inv_make (Config.with_republish threshold cfg)).
Qed.

Example run_example :
  run (Config.mk 2 1 5000000 100)
      [Write 1000000 (Pixel.mk 0 0 3 4); Read] (Place.make (Config.mk 2 1 5000000 100))
  = Some [Wrote true;
          Got {| Snapshot.width := 2; Snapshot.height := 1;
                 Snapshot.pixels := [Pixel.mk 0 0 3 4; Pixel.mk 1 0 0 0];
                 Snapshot.recordNumber := 1 |}].
Proof. reflexivity. Qed.

(** ** [Place::update] *)

(** C7. For every write with [x >= width] or [y >= height], [update]
    returns [false] and the [Place] it leaves is the one it found: the same
    log, of the same length, and the same map of users' timestamps. *)
Theorem update_out_of_bounds (cfg : Config.t) (now : Z) (p : Pixel.t) (pl : Place.t) :
  Pixel.getX p >= Place.width pl ∨ Pixel.getY p >= Place.height pl →
  Place.update cfg now p pl = (false, pl) ∧
  Place.updates (Place.update cfg now p pl).2 = Place.updates pl ∧
  Place.mostRecentUpdatesPerUser (Place.update cfg now p pl).2
    = Place.mostRecentUpdatesPerUser pl.
Proof.
  intros H. unfold Place.update. by rewrite decide_True.
Qed.

Lemma update_out_of_bounds_witness :
  let pl := Place.make Config.source in
  let p := Pixel.mk 1000 0 1 2 in
  Place.update Config.source 7000000 p pl = (false, pl) ∧
  Place.updates (Place.update Config.source 7000000 p pl).2 = Place.updates pl ∧
  Place.mostRecentUpdatesPerUser (Place.update Config.source 7000000 p pl).2
    = Place.mostRecentUpdatesPerUser pl.
Proof.
  intros pl p. apply (update_out_of_bounds Config.source 7000000 p pl).
  left. simpl. lia.
Defined.

(** The three ways through [update]. *)
Lemma update_paths cfg now p pl :
  (out_of_bounds p pl ∧ Place.update cfg now p pl = (false, pl)) ∨
  (¬ out_of_bounds p pl ∧ cooling cfg now p pl ∧
   Place.update cfg now p pl = (false, pl)) ∨
  (¬ out_of_bounds p pl ∧ ¬ cooling cfg now p pl ∧
   Place.update cfg now p pl = (true, Place.accept now p pl)).
Proof.
  unfold Place.update, out_of_bounds, cooling.
  case_decide as Hb; [by left|]. right.
  destruct (_ !! _) as [recent|] eqn:Hm.
  - case_decide as Hc; [left | right]; split_and!; try done; [by eauto|].
    intros (recent' & ? & ?). by simplify_eq.
  - right. split_and!; try done. intros (recent' & ? & ?). by simplify_eq.
Qed.

(** ** Record numbers *)




Example submit_example :
  (submit Config.source
     [(10000000, Pixel.mk 0 0 1 1); (10000001, Pixel.mk 0 0 2 1);
      (10000002, Pixel.mk 1000 0 3 2); (10000003, Pixel.mk 5 5 4 2);
      (15000000, Pixel.mk 0 0 5 1)]
     (Place.make Config.source)).1
  = [Some 0; None; None; Some 1; Some 2].
Proof. reflexivity. Qed.

(** ** Stores stay inside the vector *)

(** C10. In a reachable [Place] every update of the log has [x < width]
    and [y < height], its index [y * width + x] is below [width * height],
    and [apply] of the log to any snapshot of these dimensions, from any
    [recordNumber], makes no store outside of the vector: it returns. *)
Theorem apply_in_bounds (cfg : Config.t) (pl : Place.t) :
  reachable cfg pl →
  Forall (λ u,
            0 ≤ Pixel.getX (Update.pixel u) < Config.width cfg ∧
            0 ≤ Pixel.getY (Update.pixel u) < Config.height cfg ∧
            0 ≤ Snapshot.index (Config.width cfg) (Update.pixel u)
              < Config.width cfg * Config.height cfg)
         (Place.updates pl) ∧
  ∀ s : Snapshot.t,
    Snapshot.width s = Config.width cfg →
    Z.of_nat (length (Snapshot.pixels s)) = Config.width cfg * Config.height cfg →
    is_Some (Snapshot.apply (Place.updates pl) s).
Proof.
  intros HI%reachable_Inv. pose proof (inv_in_grid _ _ HI) as Hg. split.
  - eapply Forall_impl; [exact Hg|]. intros u Hu. simpl.
    pose proof (index_in_grid _ _ _ Hu). destruct Hu. done.
  - intros s Hw Hlen. rewrite apply_replay; [done|].
    rewrite Hw. apply Forall_drop.
    eapply Forall_impl; [exact Hg|]. intros u Hu. simpl.
    pose proof (index_in_grid _ _ _ Hu). lia.
Qed.

Lemma apply_in_bounds_witness :
  let cfg := Config.mk 3 3 300000000 100 in
  let pl := (Place.update cfg 1000 (Pixel.mk 2 2 5 7) (Place.make cfg)).2 in
  Forall (λ u,
            0 ≤ Pixel.getX (Update.pixel u) < Config.width cfg ∧
            0 ≤ Pixel.getY (Update.pixel u) < Config.height cfg ∧
            0 ≤ Snapshot.index (Config.width cfg) (Update.pixel u)
              < Config.width cfg * Config.height cfg)
         (Place.updates pl) ∧
  ∀ s : Snapshot.t,
    Snapshot.width s = Config.width cfg →
    Z.of_nat (length (Snapshot.pixels s)) = Config.width cfg * Config.height cfg →
    is_Some (Snapshot.apply (Place.updates pl) s).
Proof.
  intros cfg pl. apply (apply_in_bounds cfg pl).
  apply rtc_once. apply (step_update cfg 1000 (Pixel.mk 2 2 5 7)).
  unfold Pixel.wf, is_u64. simpl. lia.
Defined.

(** ** The outcomes of [update] *)

(** [update] returns a [bool], the same [false] for both rejections: no
    reading of its result tells the specification's [RejectedBounds] from
    its [RejectedCooldown]. On the program's own [Place], ten seconds after
    the epoch, user 0 has just written; one tick later the same user writes
    again, once inside the grid and once outside of it. *)
Lemma update_outcomes_not_three :
  let pl := (Place.update Config.source 10000000 (Pixel.mk 0 0 0 0)
               (Place.make Config.source)).2 in
  let inside := Pixel.mk 0 0 0 0 in
  let outside := Pixel.mk 1000 0 0 0 in
  Place.update Config.source 10000001 inside pl = (false, pl) ∧
  Place.update Config.source 10000001 outside pl = (false, pl) ∧
  (spec_submitWrite 1000 1000 5000000 10000001 inside (spec_state pl)).1
    = RejectedCooldown ∧
  (spec_submitWrite 1000 1000 5000000 10000001 outside (spec_state pl)).1
    = RejectedBounds ∧
  ¬ ∃ classify : bool → Outcome,
      ∀ cfg now p pl,
        classify (Place.update cfg now p pl).1 =
        (spec_submitWrite (Place.width pl) (Place.height pl) (Config.cooldown cfg)
           now p (spec_state pl)).1.
Proof.
  intros pl inside outside. split_and!; [reflexivity..|].
  intros [classify H].
  pose proof (H Config.source 10000001 inside pl) as Hcool.
  pose proof (H Config.source 10000001 outside pl) as Hbounds.
  change (classify false = RejectedCooldown) in Hcool.
  change (classify false = RejectedBounds) in Hbounds.
  congruence.
Qed.

(** C9, as the program has it. Every call of [update] takes exactly one of
    three ways: the pixel is out of bounds, [false] is returned and the
    [Place] is untouched; or the pixel is in bounds, the user is cooling
    down, [false] is returned and the [Place] is untouched; or neither, [true]
    is returned, the log has grown by the one update numbered with its
    former length and the user's timestamp is the clock reading, the rest of
    the [Place] being untouched. [true] carries no record number and the two
    [false] are one value. *)
Theorem update_all_or_nothing (cfg : Config.t) (now : Z) (p : Pixel.t) (pl : Place.t) :
  let result := Place.update cfg now p pl in
  ((out_of_bounds p pl ∧ result = (false, pl)) ∨
   (¬ out_of_bounds p pl ∧ cooling cfg now p pl ∧ result = (false, pl)) ∨
   (¬ out_of_bounds p pl ∧ ¬ cooling cfg now p pl ∧ result.1 = true ∧
    Place.updates result.2 =
      Place.updates pl ++
        [Update.mk (Z.of_nat (length (Place.updates pl))) (wrap64 now) p] ∧
    Place.mostRecentUpdatesPerUser result.2 =
      <[Pixel.getUserID p := wrap64 now]> (Place.mostRecentUpdatesPerUser pl) ∧
    Place.width result.2 = Place.width pl ∧
    Place.height result.2 = Place.height pl ∧
    Place.workingSnapshot result.2 = Place.workingSnapshot pl ∧
    Place.shared result.2 = Place.shared pl ∧
    Place.recentSnapshot result.2 = Place.recentSnapshot pl)) ∧
  (result.1 = true ↔ ¬ out_of_bounds p pl ∧ ¬ cooling cfg now p pl).
Proof.
  intros result. subst result.
  destruct (update_paths cfg now p pl) as [[Hb ->]|[(Hb & Hc & ->)|(Hb & Hc & ->)]];
    simpl.
  - split; [by left | split; [done | by intros [? ?]]].
  - split; [right; by left | split; [done | by intros [? ?]]].
  - split; [right; right; by split_and! | by split].
Qed.

(** ** Republishing *)

(** The exclusive block of [getCurrentState], with its two lookups done. *)
Lemma exclusive_unfold cfg pl working recent :
  Snapshot.apply (Place.updates pl) (Place.workingSnapshot pl) = Some working →
  Place.shared pl !! Place.recentSnapshot pl = Some recent →
  Place.getCurrentState_exclusive cfg pl =
    Some (if decide (Snapshot.recordNumber working >
                     wrap64 (Snapshot.recordNumber recent + Config.republish cfg))
          then (length (Place.shared pl),
                {| Place.width := Place.width pl;
                   Place.height := Place.height pl;
                   Place.mostRecentUpdatesPerUser := Place.mostRecentUpdatesPerUser pl;
                   Place.updates := Place.updates pl;
                   Place.workingSnapshot := working;
                   Place.shared := Place.shared pl ++ [working];
                   Place.recentSnapshot := length (Place.shared pl) |})
          else (Place.recentSnapshot pl, Place.set_workingSnapshot working pl)).
Proof.
  intros Hw Hr. unfold Place.getCurrentState_exclusive.
  rewrite Hw. place. rewrite Hr. place. by case_decide.
Qed.

Lemma exclusive_inv cfg pl r pl' :
  Place.getCurrentState_exclusive cfg pl = Some (r, pl') →
  ∃ working recent,
    Snapshot.apply (Place.updates pl) (Place.workingSnapshot pl) = Some working ∧
    Place.shared pl !! Place.recentSnapshot pl = Some recent.
Proof.
  unfold Place.getCurrentState_exclusive. intros H.
  destruct (Snapshot.apply _ _) as [working|]; [|done].
  cbn [mbind option_bind Place.set_workingSnapshot Place.shared
       Place.recentSnapshot] in H.
  destruct (Place.shared pl !! Place.recentSnapshot pl) as [recent|]; [|done].
  by eexists _, _.
Qed.

Lemma submit_Inv cfg attempts pl :
  Forall (λ a, Pixel.wf a.2) attempts → Inv cfg pl → Inv cfg (submit cfg attempts pl).2.
Proof.
  intros Hwf. revert pl. induction Hwf as [|[now p] attempts Hp _ IH]; intros pl HI; [done|].
  simpl. pose proof (Inv_update cfg now p pl Hp HI) as HI'.
  destruct (Place.update cfg now p pl) as [ok pl']. specialize (IH pl' HI').
  by destruct (submit cfg attempts pl').
Qed.

(** With the program's constants, after one hundred accepted writes the
    working snapshot is caught up to 100 while the recent one is at 0: the
    distance is 100, and the recent snapshot is not replaced. *)
Lemma republish_not_at_100 :
  let pl := (submit Config.source hundred_writes (Place.make Config.source)).2 in
  ∃ r pl' recent,
    Place.getCurrentState_exclusive Config.source pl = Some (r, pl') ∧
    Place.shared pl !! Place.recentSnapshot pl = Some recent ∧
    Snapshot.recordNumber (Place.workingSnapshot pl')
      - Snapshot.recordNumber recent = 100 ∧
    100 >= Config.republish Config.source ∧
    r = Place.recentSnapshot pl ∧
    Place.recentSnapshot pl' = Place.recentSnapshot pl ∧
    Place.shared pl' = Place.shared pl.
Proof.
  intros pl.
  assert (Inv Config.source pl) as HI.
  { apply submit_Inv; [|apply Inv_make].
    unfold hundred_writes. apply Forall_fmap, Forall_forall. intros i Hi.
    apply elem_of_seqZ in Hi. unfold Pixel.wf, is_u64. simpl. lia. }
  pose proof (apply_consistent _ _ _ _ (inv_in_grid _ _ HI) (inv_working _ _ HI)) as Hw.
  assert (Place.shared pl !! Place.recentSnapshot pl = Some (Snapshot.make 1000 1000))
    as Hr by reflexivity.
  assert (length (Place.updates pl) = 100%nat) as Hlen by reflexivity.
  eexists _, _, _. split; [|split; [exact Hr|]].
  - rewrite (exclusive_unfold _ _ _ _ Hw Hr). snap. rewrite Hlen.
    rewrite decide_False by (vm_compute; discriminate). reflexivity.
  - place. snap. rewrite Hlen. split_and!; try reflexivity. vm_compute. discriminate.
Qed.

(** C2, as the program has it. In a call of the exclusive block of
    [getCurrentState], once the working snapshot is caught up to the end of
    the log, the recent snapshot is replaced by a new object, a copy of the
    working snapshot, exactly when the working [recordNumber] exceeds the
    recent one by more than the republish distance (100 in the program);
    otherwise the pointer and the objects stay as they are. The pointer
    handed to the second block is the recent one. *)
Theorem exclusive_republishes (cfg : Config.t) (pl pl' : Place.t) (r : Place.ptr)
    (recent : Snapshot.t) :
  Place.getCurrentState_exclusive cfg pl = Some (r, pl') →
  Place.shared pl !! Place.recentSnapshot pl = Some recent →
  is_u64 (Snapshot.recordNumber recent + Config.republish cfg) →
  Snapshot.apply (Place.updates pl) (Place.workingSnapshot pl)
    = Some (Place.workingSnapshot pl') ∧
  r = Place.recentSnapshot pl' ∧
  (Snapshot.recordNumber (Place.workingSnapshot pl') - Snapshot.recordNumber recent
     > Config.republish cfg →
   Place.recentSnapshot pl' = length (Place.shared pl) ∧
   Place.shared pl' = Place.shared pl ++ [Place.workingSnapshot pl'] ∧
   Place.shared pl' !! Place.recentSnapshot pl' = Some (Place.workingSnapshot pl')) ∧
  (¬ Snapshot.recordNumber (Place.workingSnapshot pl') - Snapshot.recordNumber recent
       > Config.republish cfg →
   Place.recentSnapshot pl' = Place.recentSnapshot pl ∧
   Place.shared pl' = Place.shared pl) ∧
  (Place.recentSnapshot pl' ≠ Place.recentSnapshot pl ↔
   Snapshot.recordNumber (Place.workingSnapshot pl') - Snapshot.recordNumber recent
     > Config.republish cfg).
Proof.
  intros Hex Hr Hu64.
  destruct (exclusive_inv _ _ _ _ Hex) as (working & recent' & Hw & Hr').
  assert (recent' = recent) as -> by congruence.
  rewrite (exclusive_unfold _ _ _ _ Hw Hr), (wrap64_small _ Hu64) in Hex.
  pose proof (lookup_lt_Some _ _ _ Hr) as Hlt.
  case_decide as Hd; simplify_eq; place.
  - split_and!; try done; try lia.
    intros _. split_and!; try done. by rewrite list_lookup_middle.
  - split_and!; try done; try lia.
Qed.

Lemma exclusive_republishes_witness :
  let cfg := Config.mk 2 1 5000000 1 in
  let pl := (submit cfg [(0, Pixel.mk 0 0 3 1); (0, Pixel.mk 1 0 4 2)] (Place.make cfg)).2 in
  ∃ r pl' recent,
    Place.getCurrentState_exclusive cfg pl = Some (r, pl') ∧
    Place.shared pl !! Place.recentSnapshot pl = Some recent ∧
    is_u64 (Snapshot.recordNumber recent + Config.republish cfg) ∧
    Snapshot.recordNumber (Place.workingSnapshot pl') = 2 ∧
    Snapshot.recordNumber recent = 0 ∧
    Place.recentSnapshot pl' = 1%nat ∧
    (Place.recentSnapshot pl' ≠ Place.recentSnapshot pl ↔
     Snapshot.recordNumber (Place.workingSnapshot pl') - Snapshot.recordNumber recent
       > Config.republish cfg).
Proof.
  intros cfg pl.
  assert (is_u64 (0 + 1)) as Hu by (unfold is_u64; lia).
  eexists _, _, _.
  split; [reflexivity|]. split; [reflexivity|]. split; [exact Hu|].
  split; [reflexivity|]. split; [reflexivity|]. split; [reflexivity|].
  apply (exclusive_republishes cfg pl _ _ _ eq_refl eq_refl Hu).
Defined.

(** ** The cooldown *)

(** Where the clock reads at least the cooldown, [currentTime - cooldown]
    does not wrap, and [update] is the specification's [submitWrite]: the
    same decision, and the same log and timestamps afterwards. *)
Lemma update_refines_spec cfg now p pl :
  0 ≤ Config.cooldown cfg ≤ now →
  now < 2 ^ 64 →
  let spec := spec_submitWrite (Place.width pl) (Place.height pl) (Config.cooldown cfg)
                now p (spec_state pl) in
  spec_state (Place.update cfg now p pl).2 = spec.2 ∧
  (Place.update cfg now p pl).1 =
    match spec.1 with Accepted _ => true | _ => false end.
Proof.
  intros Hcd Hnow. unfold spec_submitWrite, Place.update, spec_state. simpl.
  assert (wrap64 now = now) as Hwn by (apply wrap64_small; unfold is_u64; lia).
  assert (wrap64 (now - Config.cooldown cfg) = now - Config.cooldown cfg) as Hwc
    by (apply wrap64_small; unfold is_u64; lia).
  case_decide; [done|].
  destruct (_ !! _) as [recent|]; simpl.
  - rewrite Hwc. case_decide.
    + rewrite bool_decide_eq_false_2 by lia. done.
    + rewrite bool_decide_eq_true_2 by lia. simpl. by rewrite Hwn.
  - by rewrite Hwn.
Qed.

(** Where the clock reads less than the cooldown, [currentTime - cooldown]
    is negative and compares as a number above [2^63]: the test of [update]
    fails for every earlier timestamp, and the user is let in however
    short the time since the last write. *)
Lemma update_early_clock cfg now p pl recent :
  ¬ out_of_bounds p pl →
  Place.mostRecentUpdatesPerUser pl !! Pixel.getUserID p = Some recent →
  0 ≤ recent ≤ now →
  now < Config.cooldown cfg ≤ 2 ^ 63 →
  now - recent < Config.cooldown cfg ∧
  Place.update cfg now p pl = (true, Place.accept now p pl).
Proof.
  intros Hb Hm Hr Hcd. split; [lia|].
  unfold Place.update, out_of_bounds in *. rewrite decide_False by done.
  rewrite Hm. rewrite decide_False; [done|].
  unfold wrap64.
  rewrite <- (Z.mod_add _ 1) by lia. rewrite Z.mod_small by lia. lia.
Qed.

(** C5. For every user and every two timestamps, the clock reading
    [now] being at or past the cooldown (as every reading of a wall clock
    later than the first seconds of 1970 is): a user with no entry is let in
    and gets the entry [now]; a user with an entry [last] is rejected exactly
    when [now - last < cooldown], and otherwise let in, the entry becoming
    [now]; a successful call lengthens the log by one; a rejected call leaves
    the [Place] as it was, the log's length and the user's entry included. *)
Theorem update_admission (cfg : Config.t) (now : Z) (p : Pixel.t) (pl : Place.t) :
  ¬ out_of_bounds p pl →
  0 ≤ Config.cooldown cfg ≤ now →
  now < 2 ^ 64 →
  let result := Place.update cfg now p pl in
  let user := Pixel.getUserID p in
  match Place.mostRecentUpdatesPerUser pl !! user with
  | None => result.1 = true
  | Some last => result.1 = false ↔ now - last < Config.cooldown cfg
  end ∧
  (result.1 = true →
   Place.mostRecentUpdatesPerUser result.2 !! user = Some now ∧
   length (Place.updates result.2) = S (length (Place.updates pl))) ∧
  (result.1 = false →
   result.2 = pl ∧
   Place.mostRecentUpdatesPerUser result.2 !! user
     = Place.mostRecentUpdatesPerUser pl !! user ∧
   length (Place.updates result.2) = length (Place.updates pl)).
Proof.
  intros Hb Hcd Hnow result user. subst result user.
  assert (wrap64 now = now) as Hwn by (apply wrap64_small; unfold is_u64; lia).
  assert (wrap64 (now - Config.cooldown cfg) = now - Config.cooldown cfg) as Hwc
    by (apply wrap64_small; unfold is_u64; lia).
  destruct (update_paths cfg now p pl) as [[? _]|[(_ & Hc & ->)|(_ & Hc & ->)]];
    [done| |]; unfold cooling in Hc; rewrite Hwc in Hc; place.
  - destruct Hc as (last & -> & Hlast). split_and!; try done. split; [lia | done].
  - split_and!; try done.
    + destruct (_ !! _) as [last|] eqn:Hm; [|done].
      split; [done|]. intros Hlt. exfalso. apply Hc. exists last. split; [done | lia].
    + intros _. rewrite Hwn, lookup_insert_eq, length_app. simpl. split; [done | lia].
Qed.

Lemma update_admission_witness :
  let cfg := Config.source in
  let p := Pixel.mk 0 0 0 0 in
  let pl := Place.accept 1700000000000000 p (Place.make cfg) in
  let now := 1700000003000000 in
  let result := Place.update cfg now p pl in
  let user := Pixel.getUserID p in
  match Place.mostRecentUpdatesPerUser pl !! user with
  | None => result.1 = true
  | Some last => result.1 = false ↔ now - last < Config.cooldown cfg
  end ∧
  (result.1 = true →
   Place.mostRecentUpdatesPerUser result.2 !! user = Some now ∧
   length (Place.updates result.2) = S (length (Place.updates pl))) ∧
  (result.1 = false →
   result.2 = pl ∧
   Place.mostRecentUpdatesPerUser result.2 !! user
     = Place.mostRecentUpdatesPerUser pl !! user ∧
   length (Place.updates result.2) = length (Place.updates pl)).
Proof.
  intros cfg p pl now.
  apply (update_admission cfg now p pl).
  - unfold out_of_bounds. simpl. lia.
  - simpl. lia.
  - lia.
Defined.

(** Before the clock reaches the cooldown. [main] calls
    [update(Pixel{0,0,0,0})] twice and expects the second call to fail. Were
    the clock at one second after the epoch for the first call and at two
    seconds for the second, the comparison would be made against
    [2000000 - 5000000] taken as a [uint64_t], and the second call would
    succeed. *)
Example update_cooldown_wraps :
  let p := Pixel.mk 0 0 0 0 in
  let pl := (Place.update Config.source 1000000 p (Place.make Config.source)).2 in
  Place.mostRecentUpdatesPerUser pl !! 0 = Some 1000000 ∧
  2000000 - 1000000 < Config.cooldown Config.source ∧
  wrap64 (2000000 - Config.cooldown Config.source) = 2 ^ 64 - 3000000 ∧
  Place.update Config.source 2000000 p pl = (true, Place.accept 2000000 p pl) ∧
  Place.mostRecentUpdatesPerUser (Place.update Config.source 2000000 p pl).2 !! 0
    = Some 2000000 ∧
  length (Place.updates (Place.update Config.source 2000000 p pl).2) = 2%nat.
Proof. intros p pl. split_and!; reflexivity. Qed.

(** ** The end-to-end scenario *)



(** Were the clock at the start of the epoch, [t0 = 0], the write one
    second after the first would be accepted: the read that follows would
    show 9 in the cell (1, 1) and a [recordNumber] of 2. *)
Example scenario_early_clock :
  run three_by_three (scenario 0) (Place.make three_by_three) =
    Some [Wrote true; Wrote true; Got (centre (Pixel.mk 1 1 9 7) 2);
          Wrote true; Got (centre (Pixel.mk 1 1 9 7) 3)] ∧
  (submit three_by_three (scenario_writes 0) (Place.make three_by_three)).1 =
    [Some 0; Some 1; Some 2].
Proof. split; reflexivity. Qed.

(** The same with the program's own cooldown, [5 * 1'000'000] ticks. *)
Example scenario_early_clock_source :
  (submit Config.source (scenario_writes 0) (Place.make Config.source)).1 =
    [Some 0; Some 1; Some 2] ∧
  (submit Config.source (scenario_writes 1700000000000000) (Place.make Config.source)).1 =
    [Some 0; None; Some 1].
Proof. split; reflexivity. Qed.

(** * Further properties of the program *)

(** ** [Snapshot::Snapshot] *)



(** ** [Snapshot::apply]: when it is defined, and in steps *)

Lemma apply_loop_app w us vs px :
  Snapshot.apply_loop w (us ++ vs) px =
  Snapshot.apply_loop w us px ≫= Snapshot.apply_loop w vs.
Proof.
  revert px. induction us as [|u us IH]; intros px; [done|].
  simpl. destruct (Snapshot.store px _ _) as [px'|]; [|done]. apply IH.
Qed.

Lemma apply_is_Some log s :
  is_Some (Snapshot.apply log s) ↔
  in_range (Snapshot.width s) (length (Snapshot.pixels s))
           (drop (Z.to_nat (Snapshot.recordNumber s)) log).
Proof.
  split.
  - intros [s' H]. unfold Snapshot.apply in H.
    destruct (Snapshot.apply_loop _ _ _) as [px|] eqn:Hl; [|done].
    by apply apply_loop_Some in Hl as [? _].
  - intros H. rewrite apply_replay by done. by eexists.
Qed.

(** X2. [apply] is defined (no store past the end of [pixels]) exactly
    when the index of every update from position [recordNumber] on is below
    the size of [pixels]; the updates before [recordNumber] are not looked
    at. When it is defined it keeps the dimensions and the number of cells. *)
Theorem apply_defined (log : list Update.t) (s : Snapshot.t) :
  (is_Some (Snapshot.apply log s) ↔
   Forall (λ u, Snapshot.index (Snapshot.width s) (Update.pixel u)
                < Z.of_nat (length (Snapshot.pixels s)))
          (drop (Z.to_nat (Snapshot.recordNumber s)) log)) ∧
  (∀ s', Snapshot.apply log s = Some s' →
     Snapshot.width s' = Snapshot.width s ∧
     Snapshot.height s' = Snapshot.height s ∧
     length (Snapshot.pixels s') = length (Snapshot.pixels s)).
Proof.
  split; [apply apply_is_Some|].
  intros s' H. apply apply_Some in H as (Hw & Hh & _ & Hpx).
  split_and!; try done. by rewrite Hpx, length_replay.
Qed.

Lemma apply_app log more s s1 :
  Snapshot.recordNumber s ≤ Z.of_nat (length log) →
  Snapshot.apply log s = Some s1 →
  Snapshot.apply (log ++ more) s1 = Snapshot.apply (log ++ more) s.
Proof.
  intros Hrn H1.
  pose proof (apply_Some _ _ _ H1) as (Hw & Hh & Hn & Hpx).
  unfold Snapshot.apply in H1 |- *.
  destruct (Snapshot.apply_loop (Snapshot.width s) _ (Snapshot.pixels s))
    as [px|] eqn:Hl; [|done].
  apply apply_loop_Some in Hl as [Hr ->].
  rewrite Hn, Nat2Z.id, drop_app_length, Hw, Hh, Hpx.
  rewrite (drop_app_le log) by lia.
  rewrite apply_loop_app, (apply_loop_replay _ (drop _ log)) by done. done.
Qed.

(** X3. Catching up in two steps is catching up in one: when [apply] has
    brought a snapshot that was not ahead of the log to the end of the log,
    and the log has grown since, a further [apply] returns what one [apply] of
    the grown log to the first snapshot returns (the cells and
    [recordNumber], or the undefined store). *)
Theorem apply_in_steps (log more : list Update.t) (s s1 : Snapshot.t) :
  Snapshot.recordNumber s ≤ Z.of_nat (length log) →
  Snapshot.apply log s = Some s1 →
  Snapshot.apply (log ++ more) s1 = Snapshot.apply (log ++ more) s.
Proof. apply apply_app. Qed.

Lemma apply_in_steps_witness :
  let log := [Update.mk 0 10 (Pixel.mk 1 0 5 7)] in
  let more := [Update.mk 1 20 (Pixel.mk 0 1 6 8); Update.mk 2 30 (Pixel.mk 1 0 9 9)] in
  let s := Snapshot.make 2 2 in
  let s1 := full 2 2 log in
  Snapshot.apply log s = Some s1 ∧
  Snapshot.apply (log ++ more) s1 = Snapshot.apply (log ++ more) s.
Proof.
  intros log more s s1.
  assert (Snapshot.apply log s = Some s1) as H by reflexivity.
  split; [exact H|].
  apply (apply_in_steps log more s s1); [vm_compute; discriminate | exact H].
Defined.

(** The hypothesis of the last theorem is needed: [apply] sets
    [recordNumber] to the size of the log even when it was beyond it, and the
    later [apply] then starts from there. *)
Example apply_lowers_recordNumber :
  let s := {| Snapshot.width := 1; Snapshot.height := 1;
              Snapshot.pixels := [Pixel.mk 0 0 0 0]; Snapshot.recordNumber := 1 |} in
  let more := [Update.mk 0 10 (Pixel.mk 0 0 5 7)] in
  Snapshot.apply [] s
    = Some {| Snapshot.width := 1; Snapshot.height := 1;
              Snapshot.pixels := [Pixel.mk 0 0 0 0]; Snapshot.recordNumber := 0 |} ∧
  (Snapshot.apply [] s ≫= Snapshot.apply ([] ++ more)) ≠ Snapshot.apply ([] ++ more) s.
Proof. split; [reflexivity | vm_compute; discriminate]. Qed.

(** ** The index of a cell *)

(** X4. On a grid of at most [2^64] cells, two pixels inside the grid are
    stored in the same cell only if they have the same coordinates, and the
    coordinates can be read back from the index. *)
Theorem index_injective (w h : Z) (p q : Pixel.t) :
  w * h ≤ 2 ^ 64 →
  in_grid w h p → in_grid w h q →
  (Snapshot.index w p = Snapshot.index w q →
   Pixel.getX p = Pixel.getX q ∧ Pixel.getY p = Pixel.getY q) ∧
  Snapshot.index w p `mod` w = Pixel.getX p ∧
  Snapshot.index w p `div` w = Pixel.getY p.
Proof.
  intros Hwh Hp Hq.
  rewrite (index_exact w h p), (index_exact w h q) by done.
  destruct Hp as [Hpx Hpy], Hq as [Hqx Hqy]. split_and!.
  - intros H. assert (Pixel.getY p = Pixel.getY q) by nia. split; nia.
  - rewrite Z.add_comm, Z.mod_add by lia. apply Z.mod_small. lia.
  - rewrite Z.add_comm, Z.div_add by lia. rewrite Z.div_small by lia. lia.
Qed.

Lemma index_injective_witness :
  let p := Pixel.mk 999 1 3 4 in
  let q := Pixel.mk 999 1 5 6 in
  (Snapshot.index 1000 p = Snapshot.index 1000 q →
   Pixel.getX p = Pixel.getX q ∧ Pixel.getY p = Pixel.getY q) ∧
  Snapshot.index 1000 p `mod` 1000 = Pixel.getX p ∧
  Snapshot.index 1000 p `div` 1000 = Pixel.getY p.
Proof.
  intros p q. apply (index_injective 1000 1000 p q).
  - vm_compute. discriminate.
  - unfold in_grid. simpl. lia.
  - unfold in_grid. simpl. lia.
Defined.

(** ** [Place::Place] *)

(** X5. A read of a new [Place] returns the constructor's snapshot, with
    [recordNumber] 0, whatever the republish distance, and leaves the
    [Place] as it was made: nothing is republished. *)
Theorem getCurrentState_make (cfg : Config.t) :
  Place.getCurrentState cfg (Place.make cfg) =
    Some (Snapshot.make (Config.width cfg) (Config.height cfg), Place.make cfg).
Proof.
  set (w := Config.width cfg). set (h := Config.height cfg).
  assert (Snapshot.apply [] (Snapshot.make w h) = Some (Snapshot.make w h))
    as Hnil by done.
  pose proof (exclusive_unfold cfg (Place.make cfg) (Snapshot.make w h)
                (Snapshot.make w h) Hnil eq_refl) as Hex.
  rewrite decide_False in Hex.
  - unfold Place.getCurrentState. rewrite Hex. place.
    assert (Place.getCurrentState_shared (Place.recentSnapshot (Place.make cfg))
              (Place.set_workingSnapshot (Snapshot.make w h) (Place.make cfg))
            = Some (Snapshot.make w h)) as -> by done.
    done.
  - pose proof (wrap64_is_u64 (0 + Config.republish cfg)) as [? _].
    change (Snapshot.recordNumber (Snapshot.make w h)) with 0. lia.
Qed.

(** ** The users' timestamps and the log *)

Lemma last_by_snoc user log u :
  last_by user (log ++ [u]) =
    if decide (Pixel.getUserID (Update.pixel u) = user) then Some u
    else last_by user log.
Proof.
  unfold last_by. rewrite filter_app, filter_cons, filter_nil.
  case_decide; [by rewrite last_snoc | by rewrite app_nil_r].
Qed.

Lemma users_mirror_log cfg pl :
  reachable cfg pl →
  ∀ user, Place.mostRecentUpdatesPerUser pl !! user
          = Update.timestamp <$> last_by user (Place.updates pl).
Proof.
  unfold reachable. intros H.
  eapply (rtc_ind_r (λ pl, ∀ user, Place.mostRecentUpdatesPerUser pl !! user
                             = Update.timestamp <$> last_by user (Place.updates pl)));
    [ | | exact H].
  - intros user. simpl. by rewrite lookup_empty.
  - intros pl1 pl2 Hreach Hstep IH user.
    destruct Hstep as [now p pl0 Hp | pl0 r pl0' Hex].
    + destruct (update_cases cfg now p pl0) as [->|[_ ->]]; [apply IH|]. place.
      rewrite last_by_snoc. simpl Update.pixel.
      case_decide as Hu.
      * subst user. by rewrite lookup_insert_eq.
      * rewrite lookup_insert_ne by done. apply IH.
    + pose proof (reachable_Inv cfg _ Hreach) as HI.
      destruct (exclusive_Inv _ _ HI) as (r' & pl'' & Hex' & _ & _ & Hu & Hm & _).
      simplify_eq. rewrite Hu, Hm. apply IH.
Qed.

(** X6. In every reachable [Place] the map of users holds, for each user,
    the timestamp of the last update of the log that this user made, and no
    entry for a user who made none. *)
Theorem users_follow_log (cfg : Config.t) (pl : Place.t) (user : Z) :
  reachable cfg pl →
  Place.mostRecentUpdatesPerUser pl !! user
    = Update.timestamp <$> last_by user (Place.updates pl).
Proof. intros H. by apply (users_mirror_log cfg). Qed.

Lemma users_follow_log_witness :
  let cfg := Config.mk 3 3 5000000 100 in
  let pl := (submit cfg [(7000000, Pixel.mk 1 1 5 7); (7000001, Pixel.mk 2 2 6 8);
                         (13000000, Pixel.mk 0 0 9 7)] (Place.make cfg)).2 in
  Place.mostRecentUpdatesPerUser pl !! 7
    = Update.timestamp <$> last_by 7 (Place.updates pl).
Proof.
  intros cfg pl. apply (users_follow_log cfg pl 7).
  eapply rtc_l; [apply (step_update cfg 7000000 (Pixel.mk 1 1 5 7))|];
    [unfold Pixel.wf, is_u64; simpl; lia|].
  eapply rtc_l; [apply (step_update cfg 7000001 (Pixel.mk 2 2 6 8))|];
    [unfold Pixel.wf, is_u64; simpl; lia|].
  apply rtc_once. apply (step_update cfg 13000000 (Pixel.mk 0 0 9 7)).
  unfold Pixel.wf, is_u64. simpl. lia.
Defined.

(** X7. With the clock at or past the cooldown (so that
    [currentTime - cooldown] does not wrap), a write of a user who has an
    update in the log succeeds exactly when the pixel is in bounds and the
    clock is at least the cooldown past the timestamp of that user's last
    update in the log. *)
Theorem update_after_cooldown (cfg : Config.t) (pl : Place.t) (now : Z)
    (p : Pixel.t) (u : Update.t) :
  reachable cfg pl →
  last_by (Pixel.getUserID p) (Place.updates pl) = Some u →
  0 ≤ Config.cooldown cfg ≤ now →
  now < 2 ^ 64 →
  ((Place.update cfg now p pl).1 = true ↔
   ¬ out_of_bounds p pl ∧ Config.cooldown cfg ≤ now - Update.timestamp u).
Proof.
  intros Hreach Hu Hcd Hnow.
  pose proof (users_mirror_log _ _ Hreach (Pixel.getUserID p)) as Hm.
  rewrite Hu in Hm. simpl in Hm.
  assert (wrap64 (now - Config.cooldown cfg) = now - Config.cooldown cfg) as Hwc
    by (apply wrap64_small; unfold is_u64; lia).
  unfold Place.update, out_of_bounds.
  case_decide as Hb; [by split; [|intros [? _]]|].
  rewrite Hm, Hwc. case_decide; simpl; split; try done; try lia.
Qed.

Lemma update_after_cooldown_witness :
  let cfg := Config.mk 3 3 5000000 100 in
  let pl := (Place.update cfg 7000000 (Pixel.mk 1 1 5 7) (Place.make cfg)).2 in
  let u := Update.mk 0 7000000 (Pixel.mk 1 1 5 7) in
  let p := Pixel.mk 2 2 9 7 in
  ((Place.update cfg 11999999 p pl).1 = true ↔
   ¬ out_of_bounds p pl ∧ Config.cooldown cfg ≤ 11999999 - Update.timestamp u).
Proof.
  intros cfg pl u p. apply (update_after_cooldown cfg pl 11999999 p u).
  - apply rtc_once. apply (step_update cfg 7000000 (Pixel.mk 1 1 5 7)).
    unfold Pixel.wf, is_u64. simpl. lia.
  - reflexivity.
  - simpl. lia.
  - lia.
Defined.

(** X8. A write of a user who has no update in the log succeeds exactly
    when the pixel is in bounds, whatever the clock reads. *)
Theorem update_first_write (cfg : Config.t) (pl : Place.t) (now : Z) (p : Pixel.t) :
  reachable cfg pl →
  last_by (Pixel.getUserID p) (Place.updates pl) = None →
  ((Place.update cfg now p pl).1 = true ↔ ¬ out_of_bounds p pl).
Proof.
  intros Hreach Hu.
  pose proof (users_mirror_log _ _ Hreach (Pixel.getUserID p)) as Hm.
  rewrite Hu in Hm. simpl in Hm.
  unfold Place.update, out_of_bounds.
  case_decide as Hb; [done|]. by rewrite Hm.
Qed.

Lemma update_first_write_witness :
  let cfg := Config.mk 3 3 5000000 100 in
  let pl := (Place.update cfg 7000000 (Pixel.mk 1 1 5 7) (Place.make cfg)).2 in
  let p := Pixel.mk 2 2 9 8 in
  ((Place.update cfg 0 p pl).1 = true ↔ ¬ out_of_bounds p pl).
Proof.
  intros cfg pl p. apply (update_first_write cfg pl 0 p).
  - apply rtc_once. apply (step_update cfg 7000000 (Pixel.mk 1 1 5 7)).
    unfold Pixel.wf, is_u64. simpl. lia.
  - reflexivity.
Defined.

(** ** Reads and writes, one after the other *)

Lemma getCurrentState_inv cfg pl s pl' :
  Inv cfg pl →
  Place.getCurrentState cfg pl = Some (s, pl') →
  s = full (Config.width cfg) (Config.height cfg) (Place.updates pl) ∧
  Inv cfg pl' ∧
  Place.updates pl' = Place.updates pl ∧
  Place.mostRecentUpdatesPerUser pl' = Place.mostRecentUpdatesPerUser pl ∧
  step cfg pl pl'.
Proof.
  intros HI H.
  destruct (getCurrentState_full _ _ HI) as (pl'' & H' & ? & ? & ? & ?).
  rewrite H' in H. by simplify_eq.
Qed.

Lemma replay_snoc w us u px :
  replay w (us ++ [u]) px =
  <[Z.to_nat (Snapshot.index w (Update.pixel u)) := Update.pixel u]> (replay w us px).
Proof. by rewrite replay_app. Qed.

(** X9. An accepted write shows in the next read, and in its own cell
    only: after a read that returned [s0] and a call of [update] that
    returned [true], a read returns [s0] with the pixel stored at
    [y * width + x] and [recordNumber] one higher. *)
Theorem read_after_write (cfg : Config.t) (pl pl0 pl1 : Place.t) (s0 : Snapshot.t)
    (now : Z) (p : Pixel.t) :
  Config.wf cfg →
  reachable cfg pl →
  Pixel.wf p →
  Place.getCurrentState cfg pl = Some (s0, pl0) →
  Place.update cfg now p pl0 = (true, pl1) →
  ∃ s1 pl2,
    Place.getCurrentState cfg pl1 = Some (s1, pl2) ∧
    Snapshot.recordNumber s1 = Snapshot.recordNumber s0 + 1 ∧
    Snapshot.pixels s1 =
      <[Z.to_nat (Pixel.getY p * Config.width cfg + Pixel.getX p) := p]>
        (Snapshot.pixels s0) ∧
    Snapshot.pixels s1 !! Z.to_nat (Pixel.getY p * Config.width cfg + Pixel.getX p)
      = Some p.
Proof.
  intros [Hw Hh] HI%reachable_Inv (Hx & Hy & _) Hread Hupd.
  destruct (getCurrentState_inv _ _ _ _ HI Hread) as (-> & HI0 & Hu0 & _).
  destruct (update_paths cfg now p pl0) as [[_ H]|[(_ & _ & H)|(Hb & _ & H)]];
    rewrite H in Hupd; simplify_eq.
  assert (in_grid (Config.width cfg) (Config.height cfg) p) as Hg.
  { unfold out_of_bounds in Hb.
    rewrite (inv_width _ _ HI0), (inv_height _ _ HI0) in Hb.
    unfold in_grid, is_u64 in *. lia. }
  pose proof (Inv_accept cfg now p pl0 Hg HI0) as HI1.
  destruct (getCurrentState_full _ _ HI1) as (pl2 & -> & _).
  eexists _, pl2. split; [done|]. place. snap. rewrite Hu0.
  rewrite length_app, replay_snoc. cbn [Update.pixel].
  rewrite (index_exact _ (Config.height cfg)) by (done || nia).
  split_and!; [simpl; lia | done |].
  apply list_lookup_insert_eq. rewrite length_replay, length_make.
  destruct Hg. nia.
Qed.

Lemma read_after_write_witness :
  let cfg := Config.mk 3 3 5000000 100 in
  let pl := Place.make cfg in
  let p := Pixel.mk 2 1 5 7 in
  ∃ s1 pl2,
    Place.getCurrentState cfg (Place.accept 7000000 p pl) = Some (s1, pl2) ∧
    Snapshot.recordNumber s1 = Snapshot.recordNumber (Snapshot.make 3 3) + 1 ∧
    Snapshot.pixels s1 =
      <[Z.to_nat (Pixel.getY p * Config.width cfg + Pixel.getX p) := p]>
        (Snapshot.pixels (Snapshot.make 3 3)) ∧
    Snapshot.pixels s1 !! Z.to_nat (Pixel.getY p * Config.width cfg + Pixel.getX p)
      = Some p.
Proof.
  intros cfg pl p.
  apply (read_after_write cfg pl pl (Place.accept 7000000 p pl) (Snapshot.make 3 3)
           7000000 p).
  - unfold Config.wf. simpl. lia.
  - apply rtc_refl.
  - unfold Pixel.wf, is_u64. simpl. lia.
  - reflexivity.
  - reflexivity.
Defined.

(** X10. A read is invisible to the writers: a call of [update] made after
    a read returns what it would have returned without the read, and leaves
    the same log and the same users' timestamps. *)
Theorem update_after_read (cfg : Config.t) (pl pl' : Place.t) (s : Snapshot.t)
    (now : Z) (p : Pixel.t) :
  reachable cfg pl →
  Place.getCurrentState cfg pl = Some (s, pl') →
  (Place.update cfg now p pl').1 = (Place.update cfg now p pl).1 ∧
  Place.updates (Place.update cfg now p pl').2
    = Place.updates (Place.update cfg now p pl).2 ∧
  Place.mostRecentUpdatesPerUser (Place.update cfg now p pl').2
    = Place.mostRecentUpdatesPerUser (Place.update cfg now p pl).2.
Proof.
  intros HI%reachable_Inv Hread.
  destruct (getCurrentState_inv _ _ _ _ HI Hread) as (_ & HI' & Hu & Hm & _).
  assert (same_log pl' pl) as Hs.
  { unfold same_log.
    rewrite (inv_width _ _ HI'), (inv_height _ _ HI'),
      (inv_width _ _ HI), (inv_height _ _ HI). done. }
  destruct (update_same_log cfg now p _ _ Hs) as [Hb (_ & _ & Hm' & Hu')]. done.
Qed.

Lemma update_after_read_witness :
  let cfg := Config.mk 3 3 5000000 100 in
  let pl := (Place.update cfg 7000000 (Pixel.mk 1 1 5 7) (Place.make cfg)).2 in
  let p := Pixel.mk 2 1 9 7 in
  ∃ s pl',
    Place.getCurrentState cfg pl = Some (s, pl') ∧
    (Place.update cfg 13000000 p pl').1 = (Place.update cfg 13000000 p pl).1 ∧
    Place.updates (Place.update cfg 13000000 p pl').2
      = Place.updates (Place.update cfg 13000000 p pl).2 ∧
    Place.mostRecentUpdatesPerUser (Place.update cfg 13000000 p pl').2
      = Place.mostRecentUpdatesPerUser (Place.update cfg 13000000 p pl).2.
Proof.
  intros cfg pl p. eexists _, _. split; [reflexivity|].
  eapply (update_after_read cfg pl); [|reflexivity].
  apply rtc_once. apply (step_update cfg 7000000 (Pixel.mk 1 1 5 7)).
  unfold Pixel.wf, is_u64. simpl. lia.
Defined.

(** ** The cache between two reads *)

Lemma exclusive_twice cfg pl r pl' :
  Inv cfg pl →
  0 ≤ Config.republish cfg →
  Z.of_nat (length (Place.updates pl)) + Config.republish cfg < 2 ^ 64 →
  Place.getCurrentState_exclusive cfg pl = Some (r, pl') →
  Place.getCurrentState_exclusive cfg pl' = Some (r, pl').
Proof.
  intros HI Hth Hlen Hex.
  set (f := full (Config.width cfg) (Config.height cfg) (Place.updates pl)) in *.
  pose proof (apply_consistent _ _ _ _ (inv_in_grid _ _ HI) (inv_working _ _ HI)) as Hw.
  pose proof (apply_consistent _ _ _ _ (inv_in_grid _ _ HI)
                (consistent_full _ _ (Place.updates pl))) as Hf.
  destruct (lookup_lt_is_Some_2 _ _ (inv_recent _ _ HI)) as [rs Hr].
  rewrite (exclusive_unfold _ _ _ _ Hw Hr) in Hex. fold f in Hex, Hw, Hf.
  case_decide as Hd; simplify_eq.
  - erewrite exclusive_unfold; [|exact Hf | place; by apply list_lookup_middle].
    rewrite decide_False; [done|]. subst f. snap.
    rewrite wrap64_small by (unfold is_u64; lia). lia.
  - erewrite exclusive_unfold; [|exact Hf | exact Hr].
    by rewrite decide_False.
Qed.

(** X11. Two reads in a row: the second returns the snapshot of the first
    and changes nothing in the [Place] (no catching up, no republishing),
    as long as the republish distance is not negative and the log is short
    enough for [recordNumber + distance] not to wrap. *)
Theorem read_twice (cfg : Config.t) (pl pl' : Place.t) (s : Snapshot.t) :
  reachable cfg pl →
  0 ≤ Config.republish cfg →
  Z.of_nat (length (Place.updates pl)) + Config.republish cfg < 2 ^ 64 →
  Place.getCurrentState cfg pl = Some (s, pl') →
  Place.getCurrentState cfg pl' = Some (s, pl').
Proof.
  intros HI%reachable_Inv Hth Hlen Hread.
  unfold Place.getCurrentState in *.
  destruct (Place.getCurrentState_exclusive cfg pl) as [[r pl1]|] eqn:Hex; [|done].
  place. cbn [mbind option_bind] in Hread.
  destruct (Place.getCurrentState_shared r pl1) as [s1|] eqn:Hsh; [|done].
  simplify_eq/=.
  rewrite (exclusive_twice _ _ _ _ HI Hth Hlen Hex). place. by rewrite Hsh.
Qed.

Lemma read_twice_witness :
  let cfg := Config.mk 2 1 5000000 1 in
  let pl := (submit cfg [(0, Pixel.mk 0 0 3 1); (0, Pixel.mk 1 0 4 2)] (Place.make cfg)).2 in
  ∃ s pl',
    Place.getCurrentState cfg pl = Some (s, pl') ∧
    Place.getCurrentState cfg pl' = Some (s, pl').
Proof.
  intros cfg pl. eexists _, _.
  assert (reachable cfg pl) as Hreach.
  { eapply rtc_l; [apply (step_update cfg 0 (Pixel.mk 0 0 3 1))|];
      [unfold Pixel.wf, is_u64; simpl; lia|].
    apply rtc_once. apply (step_update cfg 0 (Pixel.mk 1 0 4 2)).
    unfold Pixel.wf, is_u64. simpl. lia. }
  split; [reflexivity|].
  apply (read_twice cfg pl _ _ Hreach); [by vm_compute | by vm_compute | reflexivity].
Defined.

(** X12. The source's comment on [recentCopy], "some value from within the
    last 100 updates": the snapshot behind the pointer that the exclusive
    block hands out is at most the republish distance behind the log, so the
    second block has at most that many updates to apply, plus those written
    in between (distance not negative, no wrap). *)
Theorem recent_within_distance (cfg : Config.t) (pl pl' : Place.t) (r : Place.ptr)
    (s : Snapshot.t) :
  reachable cfg pl →
  0 ≤ Config.republish cfg →
  Z.of_nat (length (Place.updates pl)) + Config.republish cfg < 2 ^ 64 →
  Place.getCurrentState_exclusive cfg pl = Some (r, pl') →
  Place.shared pl' !! r = Some s →
  0 ≤ Z.of_nat (length (Place.updates pl')) - Snapshot.recordNumber s
    ≤ Config.republish cfg ∧
  Z.of_nat (length (drop (Z.to_nat (Snapshot.recordNumber s)) (Place.updates pl')))
    ≤ Config.republish cfg.
Proof.
  intros HI%reachable_Inv Hth Hlen Hex Hs.
  pose proof (apply_consistent _ _ _ _ (inv_in_grid _ _ HI) (inv_working _ _ HI)) as Hw.
  destruct (lookup_lt_is_Some_2 _ _ (inv_recent _ _ HI)) as [rs Hr].
  rewrite (exclusive_unfold _ _ _ _ Hw Hr) in Hex.
  case_decide as Hd; simplify_eq; place in Hs; place.
  - rewrite list_lookup_middle in Hs by done. simplify_eq. snap.
    rewrite length_drop. lia.
  - rewrite Hr in Hs. simplify_eq.
    pose proof (Forall_lookup_1 _ _ _ _ (inv_shared _ _ HI) Hr) as (n & Hn & ->).
    revert Hd. snap. rewrite length_take_le by done.
    rewrite wrap64_small by (unfold is_u64; lia).
    rewrite length_drop. lia.
Qed.

Lemma recent_within_distance_witness :
  let cfg := Config.mk 2 1 5000000 1 in
  let pl := (submit cfg [(0, Pixel.mk 0 0 3 1); (0, Pixel.mk 1 0 4 2)] (Place.make cfg)).2 in
  ∃ r pl' s,
    Place.getCurrentState_exclusive cfg pl = Some (r, pl') ∧
    Place.shared pl' !! r = Some s ∧
    0 ≤ Z.of_nat (length (Place.updates pl')) - Snapshot.recordNumber s
      ≤ Config.republish cfg ∧
    Z.of_nat (length (drop (Z.to_nat (Snapshot.recordNumber s)) (Place.updates pl')))
      ≤ Config.republish cfg.
Proof.
  intros cfg pl. eexists _, _, _.
  assert (reachable cfg pl) as Hreach.
  { eapply rtc_l; [apply (step_update cfg 0 (Pixel.mk 0 0 3 1))|];
      [unfold Pixel.wf, is_u64; simpl; lia|].
    apply rtc_once. apply (step_update cfg 0 (Pixel.mk 1 0 4 2)).
    unfold Pixel.wf, is_u64. simpl. lia. }
  split; [reflexivity|]. split; [reflexivity|].
  eapply (recent_within_distance cfg pl);
    [exact Hreach | by vm_compute | by vm_compute | reflexivity | reflexivity].
Defined.

(** ** The shared snapshots *)

(** X13. The source's comment on the republishing, "any existing
    shared_ptr's are still pointing at the old object": an object that a
    pointer leads to in a reachable [Place] is behind the same pointer,
    unchanged, after any further calls of [update] and [getCurrentState]. *)
Theorem shared_frozen (cfg : Config.t) (pl pl' : Place.t) (r : Place.ptr)
    (s : Snapshot.t) :
  reachable cfg pl →
  rtc (step cfg) pl pl' →
  Place.shared pl !! r = Some s →
  Place.shared pl' !! r = Some s.
Proof.
  intros HI%reachable_Inv Hsteps Hr.
  destruct (steps_prefix _ _ _ Hsteps HI) as [_ Hpre].
  by eapply prefix_lookup_Some.
Qed.

Lemma shared_frozen_witness :
  let cfg := Config.mk 2 1 5000000 0 in
  let pl := Place.make cfg in
  let pl1 := (Place.update cfg 0 (Pixel.mk 1 0 4 2) pl).2 in
  ∃ r' pl',
    Place.getCurrentState_exclusive cfg pl1 = Some (r', pl') ∧
    Place.recentSnapshot pl' = 1%nat ∧
    Place.shared pl' !! 0%nat = Some (Snapshot.make 2 1).
Proof.
  intros cfg pl pl1. eexists _, _.
  split; [reflexivity|]. split; [reflexivity|].
  apply (shared_frozen cfg pl _ 0%nat (Snapshot.make 2 1)).
  - apply rtc_refl.
  - eapply rtc_l; [apply (step_update cfg 0 (Pixel.mk 1 0 4 2))|];
      [unfold Pixel.wf, is_u64; simpl; lia|].
    apply rtc_once. eapply step_exclusive. reflexivity.
  - reflexivity.
Defined.

Lemma recordNumbers_ordered cfg pl :
  reachable cfg pl →
  ∃ recent,
    Place.shared pl !! Place.recentSnapshot pl = Some recent ∧
    0 ≤ Snapshot.recordNumber recent
      ≤ Snapshot.recordNumber (Place.workingSnapshot pl) ∧
    Snapshot.recordNumber (Place.workingSnapshot pl)
      ≤ Z.of_nat (length (Place.updates pl)).
Proof.
  unfold reachable. intros H.
  eapply (rtc_ind_r (λ pl, ∃ recent,
    Place.shared pl !! Place.recentSnapshot pl = Some recent ∧
    0 ≤ Snapshot.recordNumber recent
      ≤ Snapshot.recordNumber (Place.workingSnapshot pl) ∧
    Snapshot.recordNumber (Place.workingSnapshot pl)
      ≤ Z.of_nat (length (Place.updates pl)))); [ | | exact H].
  - eexists. split; [reflexivity|]. by vm_compute.
  - intros pl1 pl2 Hreach Hstep (recent & Hr & Hrw & Hwl).
    destruct Hstep as [now p pl0 Hp | pl0 r pl0' Hex].
    + destruct (update_cases cfg now p pl0) as [->|[_ ->]]; [by eauto|]. place.
      exists recent. rewrite length_app. simpl. split_and!; try done; lia.
    + pose proof (reachable_Inv cfg _ Hreach) as HI.
      pose proof (apply_consistent _ _ _ _ (inv_in_grid _ _ HI) (inv_working _ _ HI))
        as Hw.
      rewrite (exclusive_unfold _ _ _ _ Hw Hr) in Hex.
      case_decide as Hd; simplify_eq; place; snap.
      * eexists. split; [by apply list_lookup_middle|]. snap. lia.
      * exists recent. split; [done|]. lia.
Qed.

(** X14. In every reachable [Place] the recent snapshot is not ahead of
    the working snapshot, which is not ahead of the log:
    [0 <= recent.recordNumber <= working.recordNumber <= updates.size()]. *)
Theorem recent_working_log (cfg : Config.t) (pl : Place.t) :
  reachable cfg pl →
  ∃ recent,
    Place.shared pl !! Place.recentSnapshot pl = Some recent ∧
    0 ≤ Snapshot.recordNumber recent
      ≤ Snapshot.recordNumber (Place.workingSnapshot pl) ∧
    Snapshot.recordNumber (Place.workingSnapshot pl)
      ≤ Z.of_nat (length (Place.updates pl)).
Proof. apply recordNumbers_ordered. Qed.

Lemma recent_working_log_witness :
  let cfg := Config.mk 2 1 5000000 0 in
  let pl := (Place.update cfg 0 (Pixel.mk 1 0 4 2) (Place.make cfg)).2 in
  ∃ recent,
    Place.shared pl !! Place.recentSnapshot pl = Some recent ∧
    0 ≤ Snapshot.recordNumber recent
      ≤ Snapshot.recordNumber (Place.workingSnapshot pl) ∧
    Snapshot.recordNumber (Place.workingSnapshot pl)
      ≤ Z.of_nat (length (Place.updates pl)).
Proof.
  intros cfg pl. apply (recent_working_log cfg pl).
  apply rtc_once. apply (step_update cfg 0 (Pixel.mk 1 0 4 2)).
  unfold Pixel.wf, is_u64. simpl. lia.
Defined.

(** ** [main] *)

(** X15. With clock readings that do not wrap (the first not negative,
    the second and the third at or past the cooldown of 5000000 ticks),
    [main] prints "Failed!" when the second call comes 5000000 ticks or more
    after the first, as it does after [sleep(3)] on a clock of nanoseconds;
    otherwise it prints "OK!" and then, when the third call comes 5000000
    ticks or more after the first, "Still ok!". *)
Theorem main_output (clock1 clock2 clock3 : Z) :
  0 ≤ clock1 < 2 ^ 64 →
  5000000 ≤ clock2 < 2 ^ 64 →
  5000000 ≤ clock3 < 2 ^ 64 →
  main clock1 clock2 clock3 =
    if decide (clock2 - clock1 < 5000000)
    then "OK!"%string ::
         (if decide (clock3 - clock1 < 5000000) then [] else ["Still ok!"%string])
    else ["Failed!"%string].
Proof.
  intros H1 H2 H3. unfold main.
  set (p := Pixel.mk 0 0 0 0).
  assert (Place.update Config.source clock1 p (Place.make Config.source)
          = (true, Place.accept clock1 p (Place.make Config.source))) as -> by reflexivity.
  set (pl1 := Place.accept clock1 p (Place.make Config.source)).
  assert (wrap64 clock1 = clock1) as Hw1 by (apply wrap64_small; unfold is_u64; lia).
  assert (Place.mostRecentUpdatesPerUser pl1 !! Pixel.getUserID p = Some clock1) as Hm.
  { subst pl1. place. rewrite Hw1. apply lookup_insert_eq. }
  assert (∀ now, 5000000 ≤ now < 2 ^ 64 →
            Place.update Config.source now p pl1 =
              if decide (now - clock1 < 5000000) then (false, pl1)
              else (true, Place.accept now p pl1)) as Hupd.
  { intros now Hnow. unfold Place.update.
    rewrite decide_False by (simpl; lia). rewrite Hm.
    change (Config.cooldown Config.source) with 5000000.
    rewrite wrap64_small by (unfold is_u64; lia).
    destruct (decide (now - clock1 < 5000000)).
    - rewrite decide_True by lia. done.
    - rewrite decide_False by lia. done. }
  rewrite (Hupd clock2 H2).
  destruct (decide (clock2 - clock1 < 5000000)); [|done].
  rewrite (Hupd clock3 H3).
  by destruct (decide (clock3 - clock1 < 5000000)).
Qed.

Lemma main_output_witness :
  main 1700000000000000 1700000003000100 1700000006000200
    = ["OK!"%string; "Still ok!"%string] ∧
  main 1700000000000000000 1700000003000100000 1700000006000200000
    = ["Failed!"%string].
Proof.
  split.
  - apply (main_output 1700000000000000 1700000003000100 1700000006000200); lia.
  - apply (main_output 1700000000000000000 1700000003000100000 1700000006000200000); lia.
Defined.

(** Before the clock reaches the cooldown the comparison wraps and [main]
    prints "Failed!" although no time has passed. *)
Example main_early_clock : main 0 0 0 = ["Failed!"%string].
Proof. reflexivity. Qed.

(** ** Whole executions *)

(** X16. Any sequence of calls of [update] (with well-typed pixels) and
    [getCurrentState] on a new [Place] runs without an undefined store or
    pointer, and the client sees, call by call, what it would see with the
    naive reader, whatever the republish distance. *)
Theorem run_is_naive (cfg : Config.t) (threshold : Z) (calls : list call) :
  Forall call_wf calls →
  ∃ out,
    run (Config.with_republish threshold cfg) calls (Place.make cfg) = Some out ∧
    run_naive cfg calls (Place.make cfg) = Some out.
Proof.
  intros Hwf. destruct (run_naive_eq cfg threshold calls Hwf) as [[out Hout] Heq].
  exists out. split; [done|]. by rewrite <- Heq.
Qed.

Lemma run_is_naive_witness :
  let cfg := Config.mk 2 2 5000000 100 in
  let calls := [Write 7000000 (Pixel.mk 1 0 3 4); Read; Write 7000001 (Pixel.mk 1 0 5 4);
                Write 7000002 (Pixel.mk 2 0 5 6); Write 7000003 (Pixel.mk 0 1 8 9); Read] in
  ∃ out,
    run (Config.with_republish 0 cfg) calls (Place.make cfg) = Some out ∧
    run_naive cfg calls (Place.make cfg) = Some out.
Proof.
  intros cfg calls. apply (run_is_naive cfg 0 calls).
  repeat constructor; unfold is_u64; simpl; lia.
Defined.

(** X17. A call of [getCurrentState] that other threads interleave with:
    whatever calls of [update] and exclusive blocks of other reads run
    between its two blocks, its second block returns, and what it returns is
    the naive read of the log as it is then, with that log's length for
    [recordNumber]. *)
Theorem read_interleaved (cfg : Config.t) (pl : Place.t) :
  reachable cfg pl →
  ∃ r pl1,
    Place.getCurrentState_exclusive cfg pl = Some (r, pl1) ∧
    ∀ pl2, rtc (step cfg) pl1 pl2 →
      ∃ s,
        Place.getCurrentState_shared r pl2 = Some s ∧
        Naive.readSnapshot pl2 = Some s ∧
        Snapshot.recordNumber s = Z.of_nat (length (Place.updates pl2)).
Proof.
  intros Hreach.
  destruct (getCurrentState_interleaved cfg pl Hreach) as (r & pl1 & Hex & H).
  exists r, pl1. split; [done|]. intros pl2 Hsteps.
  destruct (H pl2 Hsteps) as [Hsh Hn]. rewrite Hn, Hsh. by eexists.
Qed.

Lemma read_interleaved_witness :
  let cfg := Config.mk 2 1 5000000 0 in
  let pl := (Place.update cfg 0 (Pixel.mk 1 0 4 2) (Place.make cfg)).2 in
  ∃ r pl1,
    Place.getCurrentState_exclusive cfg pl = Some (r, pl1) ∧
    ∀ pl2, rtc (step cfg) pl1 pl2 →
      ∃ s,
        Place.getCurrentState_shared r pl2 = Some s ∧
        Naive.readSnapshot pl2 = Some s ∧
        Snapshot.recordNumber s = Z.of_nat (length (Place.updates pl2)).
Proof.
  intros cfg pl. apply (read_interleaved cfg pl).
  apply rtc_once. apply (step_update cfg 0 (Pixel.mk 1 0 4 2)).
  unfold Pixel.wf, is_u64. simpl. lia.
Defined.

(** ** The cooldown before the clock reaches it *)

(** X18. While the clock reads less than the cooldown, [update] lets every
    in-bounds write of a user through whose entry is not after the clock,
    however short the time since that entry: [currentTime - cooldown] is
    negative and is compared as a [uint64_t] above [2^63]. *)
Theorem early_clock_no_cooldown (cfg : Config.t) (now : Z) (p : Pixel.t)
    (pl : Place.t) (recent : Z) :
  ¬ out_of_bounds p pl →
  Place.mostRecentUpdatesPerUser pl !! Pixel.getUserID p = Some recent →
  0 ≤ recent ≤ now →
  now < Config.cooldown cfg ≤ 2 ^ 63 →
  Place.update cfg now p pl = (true, Place.accept now p pl).
Proof. intros Hb Hm Hr Hcd. by apply (update_early_clock cfg now p pl recent). Qed.

Lemma early_clock_no_cooldown_witness :
  let cfg := Config.source in
  let p := Pixel.mk 0 0 0 0 in
  let pl := Place.accept 1000000 p (Place.make cfg) in
  Place.update cfg 1000001 p pl = (true, Place.accept 1000001 p pl).
Proof.
  intros cfg p pl. apply (early_clock_no_cooldown cfg 1000001 p pl 1000000).
  - unfold out_of_bounds. simpl. lia.
  - reflexivity.
  - lia.
  - simpl. lia.
Defined.
